(** * Carbon-RWA: Basel III capital engine, climate stress and retention LP

    Shallow embedding of [src/dataset.py] (the part after the marker
    [=== main script.py ===]): the AIRB capital formula [calculate_rwa],
    the carbon-tax stress transform, the anomaly pass [df.fillna(0)],
    the formulation of the linear program handed to [scipy.optimize.linprog]
    and the success / failure branch that follows it.

    Numbers.  A float64 is modelled by [fnum]: a real number, or one of the
    three special values +inf, -inf and NaN.  Arithmetic on finite values is
    exact (no rounding, no overflow, no signed zero); the special values
    follow IEEE 754 as numpy and scipy implement it.

    Outside world.  The random draws of line 97 and the solver
    [scipy.optimize.linprog] are inputs of the model.  The console holds the
    printed messages without the emoji that starts each of them. *)

From Stdlib Require Import Reals Lra Lia List String Bool ZArith Machin.
From Stdlib Require Import ClassicalEpsilon.
From Stdlib Require Floats QArith.
Import ListNotations.

Local Open Scope R_scope.

(* ================================================================== *)
(** ** float64 values *)

Inductive fnum : Type :=
| Fin (r : R)
| PInf
| NInf
| NaN.

Coercion Fin : R >-> fnum.

Definition is_finite (a : fnum) : bool :=
  match a with Fin _ => true | _ => false end.

Definition is_nan (a : fnum) : bool :=
  match a with NaN => true | _ => false end.

(** The infinity of the given sign. *)
Definition inf_of (negative : bool) : fnum :=
  if negative then NInf else PInf.

(** An infinity times a finite factor: the sign follows the factor, and
    inf * 0 is NaN. *)
Definition inf_times (negative : bool) (y : R) : fnum :=
  match total_order_T 0 y with
  | inleft (left _) => inf_of negative
  | inleft (right _) => NaN
  | inright _ => inf_of (negb negative)
  end.

(** An infinity divided by a finite divisor; the divisor zero counts as +0. *)
Definition inf_over (negative : bool) (y : R) : fnum :=
  if Rle_dec 0 y then inf_of negative else inf_of (negb negative).

Definition fneg (a : fnum) : fnum :=
  match a with
  | Fin x => Fin (- x)
  | PInf => NInf
  | NInf => PInf
  | NaN => NaN
  end.

Definition fadd (a b : fnum) : fnum :=
  match a, b with
  | NaN, _ | _, NaN => NaN
  | Fin x, Fin y => Fin (x + y)
  | PInf, NInf | NInf, PInf => NaN
  | PInf, _ | _, PInf => PInf
  | NInf, _ | _, NInf => NInf
  end.

Definition fsub (a b : fnum) : fnum := fadd a (fneg b).

Definition fmul (a b : fnum) : fnum :=
  match a, b with
  | NaN, _ | _, NaN => NaN
  | Fin x, Fin y => Fin (x * y)
  | PInf, Fin y | Fin y, PInf => inf_times false y
  | NInf, Fin y | Fin y, NInf => inf_times true y
  | PInf, PInf | NInf, NInf => PInf
  | PInf, NInf | NInf, PInf => NInf
  end.

Definition fdiv (a b : fnum) : fnum :=
  match a, b with
  | NaN, _ | _, NaN => NaN
  | Fin x, Fin y =>
      if Req_dec_T y 0 then
        match total_order_T 0 x with
        | inleft (left _) => PInf
        | inleft (right _) => NaN
        | inright _ => NInf
        end
      else Fin (x / y)
  | Fin _, PInf | Fin _, NInf => Fin 0
  | PInf, Fin y => inf_over false y
  | NInf, Fin y => inf_over true y
  | _, _ => NaN
  end.

(** [x ** 2] on a float is [x * x]. *)
Definition fsquare (a : fnum) : fnum := fmul a a.

Declare Scope fnum_scope.
Delimit Scope fnum_scope with fn.
Bind Scope fnum_scope with fnum.
Infix "+" := fadd : fnum_scope.
Infix "-" := fsub : fnum_scope.
Infix "*" := fmul : fnum_scope.
Infix "/" := fdiv : fnum_scope.
Notation "- a" := (fneg a) : fnum_scope.

(* ================================================================== *)
(** ** numpy element functions *)

(** [np.maximum] and [np.minimum] propagate NaN. *)
Definition np_maximum (a b : fnum) : fnum :=
  match a, b with
  | NaN, _ | _, NaN => NaN
  | Fin x, Fin y => Fin (Rmax x y)
  | PInf, _ | _, PInf => PInf
  | NInf, c | c, NInf => c
  end.

Definition np_minimum (a b : fnum) : fnum :=
  match a, b with
  | NaN, _ | _, NaN => NaN
  | Fin x, Fin y => Fin (Rmin x y)
  | NInf, _ | _, NInf => NInf
  | PInf, c | c, PInf => c
  end.

Definition np_exp (a : fnum) : fnum :=
  match a with
  | Fin x => Fin (exp x)
  | PInf => PInf
  | NInf => Fin 0
  | NaN => NaN
  end.

(** [np.log]: log 0 is -inf, the log of a negative number is NaN. *)
Definition np_log (a : fnum) : fnum :=
  match a with
  | Fin x =>
      match total_order_T 0 x with
      | inleft (left _) => Fin (ln x)
      | inleft (right _) => NInf
      | inright _ => NaN
      end
  | PInf => PInf
  | NInf | NaN => NaN
  end.

Definition np_sqrt (a : fnum) : fnum :=
  match a with
  | Fin x => if Rle_dec 0 x then Fin (sqrt x) else NaN
  | PInf => PInf
  | NInf | NaN => NaN
  end.

(* ================================================================== *)
(** ** scipy.stats.norm: the standard normal distribution *)

(** The unnormalised density exp(-t^2/2). *)
Definition gauss (t : R) : R := exp (- (t * t) / 2).

(** The density is continuous, hence integrable over every interval. *)
Definition gauss_integrable (a b : R) : Riemann_integrable gauss a b.
Proof.
  assert (Hc : continuity gauss).
  { unfold gauss.
    apply (continuity_comp (fun t => - (t * t) / 2) exp).
    - intros x. apply derivable_continuous_pt.
      unfold derivable_pt. eexists.
      apply (derivable_pt_lim_ext
               (fun t => (- / 2) * (t * t))%R (fun t => - (t * t) / 2)).
      + intros y. unfold Rdiv. ring.
      + apply derivable_pt_lim_scal.
        apply (derivable_pt_lim_mult id id); apply derivable_pt_lim_id.
    - intros x. apply derivable_continuous_pt. apply derivable_pt_exp. }
  destruct (Rle_dec a b) as [Hab | Hab].
  - apply continuity_implies_RiemannInt; [exact Hab |].
    intros x _. apply Hc.
  - apply RiemannInt_P1. apply continuity_implies_RiemannInt; [lra |].
    intros x _. apply Hc.
Qed.

(** The integral of [gauss] from 0 to x (negative for x < 0). *)
Definition gauss_int (x : R) : R := RiemannInt (gauss_integrable 0 x).

(** Standard normal distribution function:
    Phi x = 1/2 + (1 / sqrt (2 pi)) * integral of exp(-t^2/2) over [0, x]. *)
Definition Phi (x : R) : R := 1 / 2 + gauss_int x / sqrt (2 * PI).

(** Its inverse, the quantile function: the point where [Phi] takes the
    value p.  [Phi] is strictly increasing, so there is at most one; where
    there is none the value is left unspecified. *)
Definition Phi_inv (p : R) : R :=
  epsilon (inhabits 0) (fun x => Phi x = p).

(** [norm.cdf] *)
Definition norm_cdf (a : fnum) : fnum :=
  match a with
  | Fin x => Fin (Phi x)
  | PInf => Fin 1
  | NInf => Fin 0
  | NaN => NaN
  end.

(** [norm.ppf]: -inf at 0, +inf at 1, NaN outside [0, 1]. *)
Definition norm_ppf (a : fnum) : fnum :=
  match a with
  | Fin p =>
      match total_order_T 0 p, total_order_T p 1 with
      | inleft (left _), inleft (left _) => Fin (Phi_inv p)
      | inleft (right _), _ => NInf
      | _, inleft (right _) => PInf
      | _, _ => NaN
      end
  | _ => NaN
  end.

(* ================================================================== *)
(** ** Part B: the Basel III AIRB formula *)

Local Open Scope fnum_scope.

(** [calculate_rwa], applied to one row. *)
Definition calculate_rwa (exposure pd_val lgd maturity : fnum) : fnum :=
  let pd_val := np_maximum pd_val 0.0003 in
  let r :=
    0.12 * ((1 - np_exp (-50 * pd_val)) / (1 - np_exp (-50))) +
    0.24 * (1 - ((1 - np_exp (-50 * pd_val)) / (1 - np_exp (-50)))) in
  let b := fsquare (0.11852 - 0.05478 * np_log pd_val) in
  let term1 := norm_ppf pd_val in
  let term2 := norm_ppf 0.999 in
  let k :=
    (lgd * norm_cdf ((term1 + np_sqrt r * term2) / np_sqrt (1 - r))
     - (pd_val * lgd))
    * (1 + (maturity - 2.5) * b) / (1 - 1.5 * b) in
  exposure * k * 12.5.

Local Close Scope fnum_scope.

(* ------------------------------------------------------------------ *)
(** *** The same function, recording its partial primitives

    Every call of [np.log], [norm.ppf] and [np.sqrt] and every division is
    logged with the argument (for a division: the divisor) it received, in
    evaluation order. *)

Inductive prim_call : Type :=
| CallLog (arg : fnum)
| CallPpf (arg : fnum)
| CallSqrt (arg : fnum)
| CallDiv (divisor : fnum).

Definition traced (A : Type) : Type := (A * list prim_call)%type.

Definition tret {A} (a : A) : traced A := (a, []).

Definition tbind {A B} (m : traced A) (k : A -> traced B) : traced B :=
  let (a, l1) := m in
  let (b, l2) := k a in
  (b, l1 ++ l2).

Notation "'tlet' x := m 'in' k" := (tbind m (fun x => k))
  (at level 10, x name, m at level 100, k at level 200).

Definition t_log (a : fnum) : traced fnum := (np_log a, [CallLog a]).
Definition t_ppf (a : fnum) : traced fnum := (norm_ppf a, [CallPpf a]).
Definition t_sqrt (a : fnum) : traced fnum := (np_sqrt a, [CallSqrt a]).
Definition t_div (a d : fnum) : traced fnum := (fdiv a d, [CallDiv d]).

Local Open Scope fnum_scope.

Definition calculate_rwa_traced (exposure pd_val lgd maturity : fnum)
  : traced fnum :=
  let pd_val := np_maximum pd_val 0.0003 in
  tlet w1 := t_div (1 - np_exp (-50 * pd_val)) (1 - np_exp (-50)) in
  tlet w2 := t_div (1 - np_exp (-50 * pd_val)) (1 - np_exp (-50)) in
  let r := 0.12 * w1 + 0.24 * (1 - w2) in
  tlet lg := t_log pd_val in
  let b := fsquare (0.11852 - 0.05478 * lg) in
  tlet term1 := t_ppf pd_val in
  tlet term2 := t_ppf 0.999 in
  tlet s1 := t_sqrt r in
  tlet s2 := t_sqrt (1 - r) in
  tlet z := t_div (term1 + s1 * term2) s2 in
  tlet k :=
    t_div ((lgd * norm_cdf z - (pd_val * lgd)) * (1 + (maturity - 2.5) * b))
          (1 - 1.5 * b) in
  tret (exposure * k * 12.5).

Local Close Scope fnum_scope.

(* ================================================================== *)
(** ** Series and data frames *)

Definition Series := list fnum.

Fixpoint zip_with {A B C} (f : A -> B -> C) (l1 : list A) (l2 : list B)
  : list C :=
  match l1, l2 with
  | a :: t1, b :: t2 => f a b :: zip_with f t1 t2
  | _, _ => []
  end.

(** Element-wise arithmetic of two aligned Series. *)
Definition s_add (a b : Series) : Series := zip_with fadd a b.
Definition s_sub (a b : Series) : Series := zip_with fsub a b.
Definition s_mul (a b : Series) : Series := zip_with fmul a b.

(** Arithmetic of a Series with a scalar, which numpy broadcasts. *)
Definition s_mul_c (a : Series) (c : fnum) : Series :=
  map (fun v => fmul v c) a.
Definition c_mul_s (c : fnum) (a : Series) : Series :=
  map (fun v => fmul c v) a.
Definition s_div_c (a : Series) (c : fnum) : Series :=
  map (fun v => fdiv v c) a.
Definition c_add_s (c : fnum) (a : Series) : Series :=
  map (fun v => fadd c v) a.
Definition c_sub_s (c : fnum) (a : Series) : Series :=
  map (fun v => fsub c v) a.

(** [Series.sum()]: pandas skips NaN entries. *)
Definition s_sum (a : Series) : fnum :=
  fold_left fadd (filter (fun v => negb (is_nan v)) a) (Fin 0).

Inductive column : Type :=
| NumCol (v : Series)
| StrCol (v : list string).

Definition col_len (c : column) : nat :=
  match c with NumCol v => List.length v | StrCol v => List.length v end.

(** A DataFrame: its columns in order, by name. *)
Definition DataFrame := list (string * column).

Fixpoint df_get (df : DataFrame) (k : string) : option column :=
  match df with
  | [] => None
  | (k', c) :: rest => if String.eqb k k' then Some c else df_get rest k
  end.

(** [df[k] = c]: replaces the column in place, or appends a new one. *)
Fixpoint df_set (df : DataFrame) (k : string) (c : column) : DataFrame :=
  match df with
  | [] => [(k, c)]
  | (k', c') :: rest =>
      if String.eqb k k' then (k', c) :: rest else (k', c') :: df_set rest k c
  end.

(** [len(df)] *)
Definition df_len (df : DataFrame) : nat :=
  match df with
  | [] => 0%nat
  | (_, c) :: _ => col_len c
  end.

(** [df[k]] for a numeric column; [None] stands for the KeyError. *)
Definition num (df : DataFrame) (k : string) : option Series :=
  match df_get df k with
  | Some (NumCol v) => Some v
  | _ => None
  end.

Notation "x <- c ;; k" :=
  (match c with Some x => k | None => None end)
  (at level 61, c at next level, right associativity).

(* ================================================================== *)
(** ** Part A: the two tables and their SQL join

    The rows of [raw_financial_table] and [raw_esg_table] as the data
    generator writes them; [Borrower_ID] is an integer key.  The csv files
    and the in-memory database carry the values through unchanged. *)

Record fin_row : Type := {
  f_Loan_ID : Z;
  f_Borrower_ID : Z;
  f_Sector : string;
  f_Exposure_INR_Cr : fnum;
  f_Maturity_Years : fnum;
  f_Interest_Rate : fnum;
  f_LGD : fnum
}.

Record esg_row : Type := {
  e_Borrower_ID : Z;
  e_Carbon_Intensity_Scope1_2 : fnum;
  e_Transition_Readiness_Score : fnum
}.

(** A row of the query's result, under the names of its SELECT list. *)
Record joined_row : Type := {
  Sector : string;
  Exposure_INR_Cr : fnum;
  Maturity_Years : fnum;
  Interest_Rate : fnum;
  LGD : fnum;
  Carbon_Intensity : fnum;
  Transition_Readiness : fnum
}.

(** The SELECT list, with its two renamings. *)
Definition select_row (f : fin_row) (e : esg_row) : joined_row :=
  {| Sector := f_Sector f;
     Exposure_INR_Cr := f_Exposure_INR_Cr f;
     Maturity_Years := f_Maturity_Years f;
     Interest_Rate := f_Interest_Rate f;
     LGD := f_LGD f;
     Carbon_Intensity := e_Carbon_Intensity_Scope1_2 e;
     Transition_Readiness := e_Transition_Readiness_Score e |}.

(** [ON f.Borrower_ID = e.Borrower_ID] *)
Definition on_borrower (f : fin_row) (e : esg_row) : bool :=
  Z.eqb (f_Borrower_ID f) (e_Borrower_ID e).

(** [FROM raw_financial_table f JOIN raw_esg_table e ON ...]: an inner
    join, written as the nested loop over the financial table.  SQL fixes
    the rows of the result, not their order; the statements about the join
    do not depend on the order. *)
Definition sql_join (fin : list fin_row) (esg : list esg_row)
  : list joined_row :=
  flat_map (fun f => map (select_row f) (filter (on_borrower f) esg)) fin.

(** [pd.read_sql_query(sql_query, conn)]: the rows as a frame, one column
    per name of the SELECT list.  From an empty result pandas infers no
    numeric type: every column comes back empty with the object dtype, on
    which the arithmetic of the capital engine raises. *)
Definition read_sql_query (rows : list joined_row) : DataFrame :=
  match rows with
  | [] =>
      [("Sector", StrCol []);
       ("Exposure_INR_Cr", StrCol []);
       ("Maturity_Years", StrCol []);
       ("Interest_Rate", StrCol []);
       ("LGD", StrCol []);
       ("Carbon_Intensity", StrCol []);
       ("Transition_Readiness", StrCol [])]%string
  | _ :: _ =>
      [("Sector", StrCol (map Sector rows));
       ("Exposure_INR_Cr", NumCol (map Exposure_INR_Cr rows));
       ("Maturity_Years", NumCol (map Maturity_Years rows));
       ("Interest_Rate", NumCol (map Interest_Rate rows));
       ("LGD", NumCol (map LGD rows));
       ("Carbon_Intensity", NumCol (map Carbon_Intensity rows));
       ("Transition_Readiness", NumCol (map Transition_Readiness rows))]%string
  end.

(** *** The generated tables

    The random columns of the generator are inputs here; what the
    generator fixes itself are the two id columns, the constant [LGD] and
    the copy of [Borrower_ID] into the ESG table. *)

(** [range(1, n_loans + 1)] *)
Definition borrower_ids (n_loans : nat) : list Z :=
  map Z.of_nat (seq 1 n_loans).

(** The rows of [df_fin] from row [i] on: [Loan_ID] runs over
    [range(10001, 10001 + n_loans)], [Borrower_ID] over
    [range(1, n_loans + 1)], and [LGD] is the scalar 0.45 on every row. *)
Fixpoint df_fin_from (i : nat) (sector : list string)
         (exposure maturity rate : Series) : list fin_row :=
  match sector, exposure, maturity, rate with
  | s :: sector', v :: exposure', m :: maturity', r :: rate' =>
      {| f_Loan_ID := 10001 + Z.of_nat i;
         f_Borrower_ID := 1 + Z.of_nat i;
         f_Sector := s;
         f_Exposure_INR_Cr := v;
         f_Maturity_Years := m;
         f_Interest_Rate := r;
         f_LGD := Fin 0.45 |}
      :: df_fin_from (S i) sector' exposure' maturity' rate'
  | _, _, _, _ => []
  end.

Definition df_fin (sector : list string) (exposure maturity rate : Series)
  : list fin_row :=
  df_fin_from 0 sector exposure maturity rate.

(** [df_esg]: [df_fin['Borrower_ID']] beside the two components of
    [esg_metrics], the pairs that [get_esg_profile] returned row by row. *)
Definition df_esg (fin : list fin_row) (esg_metrics : list (fnum * fnum))
  : list esg_row :=
  zip_with (fun f x => {| e_Borrower_ID := f_Borrower_ID f;
                          e_Carbon_Intensity_Scope1_2 := fst x;
                          e_Transition_Readiness_Score := snd x |})
           fin esg_metrics.

(* ================================================================== *)
(** ** Part B on columns *)

(** [np.random.beta(1.5, 30, len(df)) + df['Carbon_Intensity'] / 100000];
    the random draws are an input. *)
Definition base_pd_col (draws carbon_intensity : Series) : Series :=
  s_add draws (s_div_c carbon_intensity (Fin 100000)).

(** [calculate_rwa] applied to four aligned Series. *)
Fixpoint calculate_rwa_col (exposure pd_val lgd maturity : Series) : Series :=
  match exposure, pd_val, lgd, maturity with
  | e :: es, p :: ps, l :: ls, m :: ms =>
      calculate_rwa e p l m :: calculate_rwa_col es ps ls ms
  | _, _, _, _ => []
  end.

Definition CET1_ratio : R := 0.105.

Definition part_b (draws : Series) (df : DataFrame) : option DataFrame :=
  ci <- num df "Carbon_Intensity" ;;
  let df := df_set df "Base_PD" (NumCol (base_pd_col draws ci)) in
  e <- num df "Exposure_INR_Cr" ;;
  p <- num df "Base_PD" ;;
  l <- num df "LGD" ;;
  m <- num df "Maturity_Years" ;;
  let df := df_set df "Current_RWA" (NumCol (calculate_rwa_col e p l m)) in
  rwa <- num df "Current_RWA" ;;
  Some (df_set df "Current_Capital" (NumCol (s_mul_c rwa (Fin CET1_ratio)))).

(* ================================================================== *)
(** ** Part C: stress *)

Definition carbon_tax : R := 4200.

Definition shock_impact (carbon_intensity : Series) : Series :=
  s_div_c (s_mul_c carbon_intensity (Fin carbon_tax)) (Fin 1000000).

(** The two assignments to [df['Stressed_PD']]. *)
Definition stressed_pd_col (base_pd carbon_intensity readiness : Series)
  : Series :=
  let stressed :=
    s_mul base_pd
      (c_add_s (Fin 1)
         (s_mul (shock_impact carbon_intensity) (c_sub_s (Fin 1) readiness))) in
  map (fun v => np_minimum v (Fin 0.999)) stressed.

Definition net_income_col (exposure interest_rate stressed_pd lgd : Series)
  : Series :=
  s_sub (s_mul exposure interest_rate) (s_mul (s_mul exposure stressed_pd) lgd).

Definition part_c_stress (df : DataFrame) : option DataFrame :=
  ci <- num df "Carbon_Intensity" ;;
  base <- num df "Base_PD" ;;
  tr <- num df "Transition_Readiness" ;;
  let df := df_set df "Stressed_PD" (NumCol (stressed_pd_col base ci tr)) in
  e <- num df "Exposure_INR_Cr" ;;
  sp <- num df "Stressed_PD" ;;
  l <- num df "LGD" ;;
  m <- num df "Maturity_Years" ;;
  let df := df_set df "Stressed_RWA" (NumCol (calculate_rwa_col e sp l m)) in
  srwa <- num df "Stressed_RWA" ;;
  let df :=
    df_set df "Stressed_Capital" (NumCol (s_mul_c srwa (Fin CET1_ratio))) in
  ir <- num df "Interest_Rate" ;;
  Some (df_set df "Net_Income" (NumCol (net_income_col e ir sp l))).

(** [df.fillna(0, inplace=True)]: pandas replaces the missing values, which
    for a float column are the NaN entries.  Infinities are not missing
    values. *)
Definition fillna_cell (v : fnum) : fnum :=
  match v with NaN => Fin 0 | _ => v end.

Definition fillna_col (c : column) : column :=
  match c with
  | NumCol v => NumCol (map fillna_cell v)
  | StrCol v => StrCol v
  end.

Definition fillna (df : DataFrame) : DataFrame :=
  map (fun kc => (fst kc, fillna_col (snd kc))) df.

(* ================================================================== *)
(** ** Part C: the linear program *)

(** The arguments of [linprog(c, A_ub=A_ub, b_ub=b_ub, bounds=bounds)]. *)
Record LinProg : Type := {
  lp_c : Series;
  lp_A_ub : list Series;
  lp_b_ub : Series;
  lp_bounds : list (fnum * fnum)
}.

(** The fields of scipy's [OptimizeResult] the script reads. *)
Record OptimizeResult : Type := {
  success : bool;
  x : Series;
  message : string
}.

Definition lp_problem (df : DataFrame) : option LinProg :=
  ni <- num df "Net_Income" ;;
  sc <- num df "Stressed_Capital" ;;
  e <- num df "Exposure_INR_Cr" ;;
  cc <- num df "Current_Capital" ;;
  Some {| lp_c := c_mul_s (Fin (-1)) ni;
          lp_A_ub := [sc; c_mul_s (Fin (-1)) e];
          lp_b_ub := [fmul (s_sum cc) (Fin 1.10);
                      fmul (fmul (Fin (-1)) (s_sum e)) (Fin 0.85)];
          lp_bounds := repeat (Fin 0, Fin 1) (df_len df) |}.

(** [a < b] on floats; false when either side is NaN. *)
Definition flt (a b : fnum) : bool :=
  match a, b with
  | Fin u, Fin v => if Rlt_dec u v then true else false
  | NInf, Fin _ | NInf, PInf | Fin _, PInf => true
  | _, _ => false
  end.

(** [np.where(df['Optimized_Retention'] < 0.1, 'Exit', 'Hold')], one row. *)
Definition strategy_of (retention : fnum) : string :=
  if flt retention (Fin 0.1) then "Exit"%string else "Hold"%string.

(** What the script prints: plain text, or a line that formats a float. *)
Inductive console_line : Type :=
| Line (text : string)
| PercentLine (label : string) (value : fnum) (suffix : string).

(** The state the script acts on: the frame [df], the console and the
    files written so far. *)
Record World : Type := {
  frame : DataFrame;
  console : list console_line;
  files : list (string * DataFrame)
}.

Definition print (l : console_line) (w : World) : World :=
  {| frame := frame w; console := console w ++ [l]; files := files w |}.

Definition to_csv (path : string) (w : World) : World :=
  {| frame := frame w; console := console w;
     files := files w ++ [(path, frame w)] |}.

Definition set_frame (df : DataFrame) (w : World) : World :=
  {| frame := df; console := console w; files := files w |}.

Definition rule40 : string := "----------------------------------------".

(** The [if res.success: ... else: ...] at the end of the script.  [None]
    is an exception: a missing column, or a solution whose length is not
    the length of the frame. *)
Definition report (res : OptimizeResult) (w : World) : option World :=
  if success res then
    if negb (Nat.eqb (List.length (x res)) (df_len (frame w))) then None
    else
      let df := df_set (frame w) "Optimized_Retention" (NumCol (x res)) in
      r <- num df "Optimized_Retention" ;;
      let df := df_set df "Strategy" (StrCol (map strategy_of r)) in
      ni <- num df "Net_Income" ;;
      sc <- num df "Stressed_Capital" ;;
      let base_roe := fdiv (s_sum ni) (s_sum sc) in
      let opt_roe :=
        fdiv (s_sum (s_mul ni (x res))) (s_sum (s_mul sc (x res))) in
      let w := set_frame df w in
      let w := print (Line rule40) w in
      let w := print (Line "Optimization Successful") w in
      let w := print (PercentLine "Stressed ROE (Baseline): " base_roe "") w in
      let w :=
        print (PercentLine "Optimized ROE (Target):  " opt_roe
                 " (Capital Efficient)") w in
      let w := print (Line rule40) w in
      Some (to_csv "final_strategy_output.csv" w)
  else
    Some (print (Line ("Optimization Failed: " ++ message res)) w).

Section Script.

(** [scipy.optimize.linprog] with [method='highs']. *)
Variable linprog : LinProg -> OptimizeResult.

(** The script from Part B on, for the joined frame [df] and the beta
    draws of line 97. *)
Definition main_script (draws : Series) (df : DataFrame) : option World :=
  df <- part_b draws df ;;
  let w := {| frame := df; console := []; files := [] |} in
  let w :=
    print (Line "Applying NGFS Disorderly Transition Scenario ($50/ton Carbon Tax)...") w in
  df <- part_c_stress (frame w) ;;
  let w := set_frame (fillna df) w in
  let w := print (Line "Running Linear Optimization Solver...") w in
  lp <- lp_problem (frame w) ;;
  report (linprog lp) w.

End Script.

(* ================================================================== *)
(** ** dashboard.py: the columns of the chart

    The dashboard reads the file the script wrote, draws a random sample of
    at most 500 rows ([df_viz]) and adds two columns to it before plotting.
    The sampled frame is the input here; the plot itself is left out. *)

(** [a > b] on floats; false when either side is NaN. *)
Definition fgt (a b : fnum) : bool := flt b a.

(** [column == s], row by row; a number never equals a string. *)
Definition col_eq_str (c : column) (s : string) : list bool :=
  match c with
  | StrCol v => map (fun u => String.eqb u s) v
  | NumCol v => map (fun _ => false) v
  end.

(** [series > c] and the element-wise [&]. *)
Definition s_gt_c (a : Series) (c : fnum) : list bool :=
  map (fun v => fgt v c) a.
Definition b_and (a b : list bool) : list bool := zip_with andb a b.

(** [np.select(conditions, choices, default)]: in each row the choice of
    the first condition that holds, the default when none does. *)
Fixpoint np_select (conditions : list (list bool)) (choices : list string)
         (default : list string) : list string :=
  match conditions, choices with
  | c :: cs, ch :: chs =>
      zip_with (fun (b : bool) rest => if b then ch else rest) c
        (np_select cs chs default)
  | _, _ => default
  end.

(** Element-wise division of two aligned Series. *)
Definition s_div (a b : Series) : Series := zip_with fdiv a b.

(** [df.sample(n=min(500, len(df)), random_state=42)]: the rows at the
    drawn positions, in the order drawn.  The positions are an input; pandas
    draws min(500, len(df)) distinct valid ones. *)
Fixpoint take_rows {A} (picked : list nat) (l : list A) : list A :=
  match picked with
  | [] => []
  | i :: rest =>
      match nth_error l i with
      | Some a => a :: take_rows rest l
      | None => take_rows rest l
      end
  end.

Definition df_sample (picked : list nat) (df : DataFrame) : DataFrame :=
  map (fun kc =>
         (fst kc,
          match snd kc with
          | NumCol v => NumCol (take_rows picked v)
          | StrCol v => StrCol (take_rows picked v)
          end)) df.

(** Steps 2 and 3 of the dashboard on the sampled frame. *)
Definition dashboard_columns (df_viz : DataFrame) : option DataFrame :=
  ni <- num df_viz "Net_Income" ;;
  sc <- num df_viz "Stressed_Capital" ;;
  let df_viz := df_set df_viz "RAROC" (NumCol (s_div ni sc)) in
  strategy <- df_get df_viz "Strategy" ;;
  ci <- num df_viz "Carbon_Intensity" ;;
  let conditions :=
    [col_eq_str strategy "Exit";
     b_and (s_gt_c ci (Fin 1200)) (col_eq_str strategy "Hold");
     col_eq_str strategy "Hold"] in
  let choices :=
    ["Divest (Value Destroyer)"; "Transition Opportunity"; "Green Leader"]%string in
  Some (df_set df_viz "Category"
          (StrCol (np_select conditions choices
                     (repeat "Green Leader"%string (df_len df_viz))))).

(** The dashboard up to the plot, on the frame read from the file. *)
Definition dashboard (picked : list nat) (df : DataFrame) : option DataFrame :=
  dashboard_columns (df_sample picked df).

(* ================================================================== *)
(** ** What a successful solve promises *)

(** [a <= b] on floats. *)
Definition fle (a b : fnum) : Prop :=
  match a, b with
  | Fin u, Fin v => u <= v
  | NInf, Fin _ | Fin _, PInf | NInf, NInf | PInf, PInf | NInf, PInf => True
  | _, _ => False
  end.

(** A row of [A_ub] times the solution. *)
Definition f_dot (a b : Series) : fnum :=
  fold_left fadd (zip_with fmul a b) (Fin 0).

(** [x] is a feasible point of the program: [A_ub @ x <= b_ub] and every
    entry within its bounds. *)
Definition lp_feasible (lp : LinProg) (sol : Series) : Prop :=
  List.length sol = List.length (lp_c lp) /\
  Forall2 (fun row b => fle (f_dot row sol) b) (lp_A_ub lp) (lp_b_ub lp) /\
  Forall2 (fun bd v => fle (fst bd) v /\ fle v (snd bd)) (lp_bounds lp) sol.

(** The documented behaviour of the solver: a result with [success] set
    carries a feasible point. *)
Definition linprog_contract (linprog : LinProg -> OptimizeResult) : Prop :=
  forall lp, success (linprog lp) = true -> lp_feasible lp (x (linprog lp)).

(** Sums and dot products of real lists. *)
Definition Rsum (l : list R) : R := fold_right Rplus 0 l.
Definition Rdot (a b : list R) : R := Rsum (zip_with Rmult a b).

(* ================================================================== *)
(** ** The formulas of the specification, on real numbers *)

(** Stress transform, in the specification's words: the shock
    [carbon_intensity * carbon_tax / 1,000,000], the uplift of [base_pd]
    damped by the readiness, and the cap at 0.999. *)
Definition spec_stressed_pd (base_pd carbon_intensity readiness : R) : R :=
  let shock := (carbon_intensity * 4200) / 1000000 in
  Rmin (base_pd * (1 + shock * (1 - readiness))) 0.999.

(** Interest earned minus the stressed expected loss. *)
Definition spec_net_income (exposure interest_rate stressed_pd lgd : R) : R :=
  exposure * interest_rate - exposure * stressed_pd * lgd.

(** Steps 2 to 5 of the capital engine for a probability of default [p]
    that is already floored. *)
Definition asset_correlation (p : R) : R :=
  let w := (1 - exp (-50 * p)) / (1 - exp (-50)) in
  0.12 * w + 0.24 * (1 - w).

Definition maturity_b (p : R) : R :=
  (0.11852 - 0.05478 * ln p) * (0.11852 - 0.05478 * ln p).

Definition conditional_pd (p : R) : R :=
  Phi ((Phi_inv p + sqrt (asset_correlation p) * Phi_inv 0.999)
       / sqrt (1 - asset_correlation p)).

Definition capital_K (p lgd maturity : R) : R :=
  (lgd * conditional_pd p - p * lgd)
  * (1 + (maturity - 2.5) * maturity_b p) / (1 - 1.5 * maturity_b p).

Definition rwa_real (exposure p lgd maturity : R) : R :=
  exposure * capital_K p lgd maturity * 12.5.

(* ================================================================== *)
(** ** Definitions used by the statements and proofs *)

(** *** Rows, columns and traces *)

(** The value the two assignments leave in one row of [Stressed_PD]. *)
Definition stressed_pd_cell (base_pd carbon_intensity readiness : fnum)
  : fnum :=
  np_minimum
    (fmul base_pd
       (fadd (Fin 1)
          (fmul (fdiv (fmul carbon_intensity (Fin carbon_tax)) (Fin 1000000))
             (fsub (Fin 1) readiness))))
    (Fin 0.999).

(** The column names of a frame, in order. *)
Definition columns (df : DataFrame) : list string := map fst df.

(** The columns the script derives, in the order it creates them. *)
Definition derived_columns : list string :=
  ["Base_PD"; "Current_RWA"; "Current_Capital"; "Stressed_PD"; "Stressed_RWA";
   "Stressed_Capital"; "Net_Income"; "Optimized_Retention"; "Strategy"]%string.

(** A console line that formats no number (the two ROE lines do). *)
Definition is_text (l : console_line) : Prop :=
  match l with Line _ => True | PercentLine _ _ _ => False end.

(** The arguments of [np.log] and [norm.ppf] in a trace. *)
Definition log_ppf_args (t : list prim_call) : list fnum :=
  flat_map (fun c => match c with
                     | CallLog a | CallPpf a => [a]
                     | _ => []
                     end) t.

(** The divisors in a trace. *)
Definition divisors (t : list prim_call) : list fnum :=
  flat_map (fun c => match c with CallDiv d => [d] | _ => [] end) t.

(** *** Sample inputs *)

(** A one-row joined frame. *)
Definition demo_frame : DataFrame :=
  [("Sector", StrCol ["Steel & Cement"]);
   ("Exposure_INR_Cr", NumCol [Fin 100]);
   ("Maturity_Years", NumCol [Fin 5]);
   ("Interest_Rate", NumCol [Fin 0.1]);
   ("LGD", NumCol [Fin 0.45]);
   ("Carbon_Intensity", NumCol [Fin 1800]);
   ("Transition_Readiness", NumCol [Fin 0.4])]%string.

(** A solver run that reports infeasibility. *)
Definition infeasible_solver (lp : LinProg) : OptimizeResult :=
  {| success := false; x := [];
     message := "The problem is infeasible." |}.

(** A solver that honours the contract: it keeps every facility when that
    is feasible and reports failure otherwise. *)
Definition keep_all_solver (lp : LinProg) : OptimizeResult :=
  let ones := map (fun _ => Fin 1) (lp_c lp) in
  if excluded_middle_informative (lp_feasible lp ones) then
    {| success := true; x := ones;
       message := "Optimization terminated successfully." |}
  else
    {| success := false; x := [];
       message := "The problem is infeasible." |}.

(** A one-row frame as it stands before the solve. *)
Definition demo_stressed_frame : DataFrame :=
  [("Exposure_INR_Cr", NumCol [Fin 100]);
   ("Current_Capital", NumCol [Fin 1]);
   ("Stressed_Capital", NumCol [Fin 1]);
   ("Net_Income", NumCol [Fin 5])]%string.

(** The world before the solve, and the program [lp_problem] builds. *)
Definition demo_world : World :=
  {| frame := demo_stressed_frame; console := []; files := [] |}.

Definition demo_lp : LinProg :=
  {| lp_c := [Fin (-1 * 5)];
     lp_A_ub := [[Fin 1]; [Fin (-1 * 100)]];
     lp_b_ub := [Fin ((0 + 1) * 1.10); Fin (-1 * (0 + 100) * 0.85)];
     lp_bounds := [(Fin 0, Fin 1)] |}.

(** A one-row frame as Part B leaves it, whose interest rate is +inf. *)
Definition demo_inf_frame : DataFrame :=
  [("Sector", StrCol ["Steel & Cement"]);
   ("Exposure_INR_Cr", NumCol [Fin 100]);
   ("Maturity_Years", NumCol [Fin 5]);
   ("Interest_Rate", NumCol [PInf]);
   ("LGD", NumCol [Fin 0.45]);
   ("Carbon_Intensity", NumCol [Fin 1800]);
   ("Transition_Readiness", NumCol [Fin 0.4]);
   ("Base_PD", NumCol [Fin 0.048]);
   ("Current_RWA", NumCol [Fin 130]);
   ("Current_Capital", NumCol [Fin 13.65])]%string.

(** The numeric columns the script reads from the joined frame. *)
Definition numeric_inputs : list string :=
  ["Exposure_INR_Cr"; "Maturity_Years"; "Interest_Rate"; "LGD";
   "Carbon_Intensity"; "Transition_Readiness"]%string.

(** The solver answers with one retention per bound it was given. *)
Definition linprog_dimension (linprog : LinProg -> OptimizeResult) : Prop :=
  forall lp, success (linprog lp) = true ->
             List.length (x (linprog lp)) = List.length (lp_bounds lp).

(** A one-row joined frame whose carbon intensity puts the base PD
    above 1. *)
Definition demo_dirty_frame : DataFrame :=
  [("Sector", StrCol ["Steel & Cement"]);
   ("Exposure_INR_Cr", NumCol [Fin 100]);
   ("Maturity_Years", NumCol [Fin 5]);
   ("Interest_Rate", NumCol [Fin 0.1]);
   ("LGD", NumCol [Fin 0.45]);
   ("Carbon_Intensity", NumCol [Fin 150000]);
   ("Transition_Readiness", NumCol [Fin 0.4])]%string.

(** Every column of the frame has [n] rows. *)
Definition rectangular (df : DataFrame) (n : nat) : Prop :=
  Forall (fun kc => col_len (snd kc) = n) df.

(** A sampled frame of two rows, as the dashboard receives it. *)
Definition demo_viz_frame : DataFrame :=
  [("Carbon_Intensity", NumCol [Fin 1800; Fin 20]);
   ("Stressed_Capital", NumCol [Fin 12; Fin 0]);
   ("Net_Income", NumCol [Fin 3; Fin 0]);
   ("Strategy", StrCol ["Hold"; "Exit"])]%string.

(** A two-row world before the final branch, and a successful result. *)
Definition demo_two_rows : World :=
  {| frame :=
       [("Exposure_INR_Cr", NumCol [Fin 100; Fin 50]);
        ("Carbon_Intensity", NumCol [Fin 1800; Fin 20]);
        ("Current_Capital", NumCol [Fin 10; Fin 4]);
        ("Stressed_Capital", NumCol [Fin 12; Fin 4]);
        ("Net_Income", NumCol [Fin (-3); Fin 5])]%string;
     console := [];
     files := [] |}.

Definition demo_result : OptimizeResult :=
  {| success := true; x := [Fin 0.05; Fin 1];
     message := "Optimization terminated successfully." |}.

(** Two loans and the ESG records of their borrowers. *)
Definition demo_fin : list fin_row :=
  [{| f_Loan_ID := 10001; f_Borrower_ID := 1; f_Sector := "Steel & Cement";
      f_Exposure_INR_Cr := Fin 100; f_Maturity_Years := Fin 5;
      f_Interest_Rate := Fin 0.1; f_LGD := Fin 0.45 |};
   {| f_Loan_ID := 10002; f_Borrower_ID := 2; f_Sector := "IT Services";
      f_Exposure_INR_Cr := Fin 50; f_Maturity_Years := Fin 2;
      f_Interest_Rate := Fin 0.09; f_LGD := Fin 0.45 |}].

Definition demo_esg : list esg_row :=
  [{| e_Borrower_ID := 1; e_Carbon_Intensity_Scope1_2 := Fin 1800;
      e_Transition_Readiness_Score := Fin 0.4 |};
   {| e_Borrower_ID := 2; e_Carbon_Intensity_Scope1_2 := Fin 20;
      e_Transition_Readiness_Score := Fin 0.8 |}].

(** A loan whose borrower has no ESG record. *)
Definition demo_orphan : fin_row :=
  {| f_Loan_ID := 10003; f_Borrower_ID := 3; f_Sector := "Pharma";
     f_Exposure_INR_Cr := Fin 70; f_Maturity_Years := Fin 3;
     f_Interest_Rate := Fin 0.12; f_LGD := Fin 0.45 |}.

(** The frame the script loads when it joins the generated tables. *)
Definition generated_frame (sector : list string)
           (exposure maturity rate : Series)
           (esg_metrics : list (fnum * fnum)) : DataFrame :=
  read_sql_query
    (sql_join (df_fin sector exposure maturity rate)
              (df_esg (df_fin sector exposure maturity rate) esg_metrics)).

(** *** Line 141 with the rounding of float64

    float64 rounds the result of every operation.  [net_income_rounded rnd]
    is line 141 on one finite row when each of its four results is rounded
    by [rnd]; with the identity for [rnd] it is the exact formula.
    [rel_err u rnd x] says that the rounded [x] is within the relative
    error [u] of [x], which binary64 guarantees with [u = 2^-53] for a
    result that neither overflows nor underflows. *)
Definition net_income_rounded (rnd : R -> R) (e ir sp l : R) : R :=
  rnd (rnd (e * ir) - rnd (rnd (e * sp) * l)).

Definition rel_err (u : R) (rnd : R -> R) (x : R) : Prop :=
  Rabs (rnd x - x) <= u * Rabs x.

(** The same line in binary64 itself, on the floats of the kernel. *)
Module Binary64.
Import Floats QArith.
Local Open Scope float_scope.

Definition net_income (e ir sp l : float) : float :=
  e * ir - e * sp * l.

Definition is_negative (f : float) : bool := f <? 0.

(** The rational number a finite binary64 value stands for. *)
Definition to_Q (f : float) : option Q :=
  match Prim2SF f with
  | S754_zero _ => Some (Qmake 0 1)
  | S754_finite s m e =>
      Some (Qmult (Qmake (if s then Zneg m else Zpos m) 1)
                  (Qpower (Qmake 2 1) e))
  | _ => None
  end.

(** [a * b <= c] and [a * b > c] in exact rational arithmetic. *)
Definition exact_mul_le (a b c : float) : bool :=
  match to_Q a, to_Q b, to_Q c with
  | Some qa, Some qb, Some qc => Qle_bool (Qmult qa qb) qc
  | _, _, _ => false
  end.

Definition exact_mul_gt (a b c : float) : bool :=
  match to_Q a, to_Q b, to_Q c with
  | Some qa, Some qb, Some qc => negb (Qle_bool (Qmult qa qb) qc)
  | _, _, _ => false
  end.

(** The float64 nearest to 0.45, and two rows: exposure 30.01 at a rate of
    0.0933 with a stressed PD next to 0.20733, and exposure 231.64 at a
    rate of 0.0931 with a stressed PD next to 0.20689. *)
Definition lgd_45 : float := 0x1.ccccccccccccdp-2.
Definition row1_exposure : float := 0x1.e028f5c28f5c3p+4.
Definition row1_rate : float := 0x1.7e28240b78034p-4.
Definition row1_stressed_pd : float := 0x1.a89e60f04c756p-3.
Definition row2_exposure : float := 0x1.cf47ae147ae14p+7.
Definition row2_rate : float := 0x1.7d566cf41f213p-4.
Definition row2_stressed_pd : float := 0x1.a7b55c9d77ec0p-3.

End Binary64.

(** *** Fixed-point arithmetic for the numeric bounds

    An integer [z] stands for the real [z / scale]; products are rounded
    down, so that a computed value is a lower bound of the exact one. *)

Definition scale : Z := 10 ^ 18.
Definition fx (z : Z) : R := IZR z / IZR scale.
Definition fx_mul (a b : Z) : Z := (a * b / scale)%Z.

(** [z] squared [k] times: a lower bound of [fx z ^ (2 ^ k)]. *)
Fixpoint fx_sq_iter (k : nat) (z : Z) : Z :=
  match k with
  | O => z
  | S k' => fx_sq_iter k' (fx_mul z z)
  end.

(** A lower Riemann sum of [gauss] with the step h = 1/500.  The value of
    [gauss] at k h is rho ^ (k * k) for rho = exp (- h * h / 2); [rho1] is
    1 - h * h / 2, a lower bound of rho, and [rho2] one of its square. *)
Definition step_h : R := / 500.
Definition rho1 : Z := (scale - 2 * 10 ^ 12)%Z.
Definition rho2 : Z := fx_mul rho1 rho1.

(** [n] more terms of the sum; [p] bounds the next odd power of rho, [g]
    the value at the current point, [acc] is the sum so far. *)
Fixpoint gauss_sum (n : nat) (p g acc : Z) : Z :=
  match n with
  | O => acc
  | S n' =>
      let g' := fx_mul g p in
      gauss_sum n' (fx_mul p rho2) g' (acc + g')
  end.

(** *** Tactics *)

(** Case analysis on the next column lookup of a pipeline stage. *)
Ltac next_column H :=
  match type of H with
  | match ?c with Some _ => _ | None => _ end = _ =>
      let E := fresh "E" in
      destruct c eqn:E; [| discriminate H]
  end.

(* ================================================================== *)
(** * Proofs *)

(** ** Lists and frames *)

Lemma nth_error_zip_with {A B C} (f : A -> B -> C) l1 l2 i a b :
  nth_error l1 i = Some a -> nth_error l2 i = Some b ->
  nth_error (zip_with f l1 l2) i = Some (f a b).
Proof.
  revert l2 i. induction l1 as [| a1 l1 IH]; intros [| b1 l2] [| i] H1 H2;
    simpl in *; try discriminate.
  - congruence.
  - now apply IH.
Qed.

Lemma nth_error_map_some {A B} (f : A -> B) l i a :
  nth_error l i = Some a -> nth_error (map f l) i = Some (f a).
Proof.
  intros H. rewrite nth_error_map, H. reflexivity.
Qed.

Lemma zip_with_map_Fin (f : fnum -> fnum -> fnum) (g : R -> R -> R) a b :
  (forall u v, f (Fin u) (Fin v) = Fin (g u v)) ->
  zip_with f (map Fin a) (map Fin b) = map Fin (zip_with g a b).
Proof.
  intros Hfg. revert b. induction a as [| u a IH]; intros [| v b]; simpl;
    try reflexivity.
  now rewrite Hfg, IH.
Qed.

Lemma zip_with_length {A B C} (f : A -> B -> C) l1 l2 :
  List.length l1 = List.length l2 ->
  List.length (zip_with f l1 l2) = List.length l1.
Proof.
  revert l2. induction l1 as [| a l1 IH]; intros [| b l2] H; simpl in *;
    try discriminate; auto.
Qed.

Lemma num_df_set_same df k v : num (df_set df k (NumCol v)) k = Some v.
Proof.
  unfold num. induction df as [| [k' c'] df IH]; simpl.
  - now rewrite String.eqb_refl.
  - destruct (String.eqb k k') eqn:E; simpl; rewrite E; auto.
Qed.

Lemma df_get_df_set_other df k k' c :
  k <> k' -> df_get (df_set df k c) k' = df_get df k'.
Proof.
  intros Hne. induction df as [| [k0 c0] df IH]; simpl.
  - destruct (String.eqb k' k) eqn:E; [| reflexivity].
    apply String.eqb_eq in E. congruence.
  - destruct (String.eqb k k0) eqn:E; simpl.
    + apply String.eqb_eq in E. subst k0.
      destruct (String.eqb k' k) eqn:E'; [| reflexivity].
      apply String.eqb_eq in E'. congruence.
    + now rewrite IH.
Qed.

Lemma num_df_set_other df k k' c :
  k <> k' -> num (df_set df k c) k' = num df k'.
Proof.
  intros Hne. unfold num. now rewrite df_get_df_set_other.
Qed.

(** ** Finite arithmetic *)

Lemma fdiv_fin (u v : R) : v <> 0 -> fdiv (Fin u) (Fin v) = Fin (u / v).
Proof.
  intros Hv. simpl. destruct (Req_dec_T v 0); [contradiction | reflexivity].
Qed.

Lemma np_log_fin (u : R) : 0 < u -> np_log (Fin u) = Fin (ln u).
Proof.
  intros Hu. simpl. destruct (total_order_T 0 u) as [[H | H] | H]; try lra.
  reflexivity.
Qed.

Lemma np_sqrt_fin (u : R) : 0 <= u -> np_sqrt (Fin u) = Fin (sqrt u).
Proof.
  intros Hu. simpl. destruct (Rle_dec 0 u); [reflexivity | contradiction].
Qed.

Lemma norm_ppf_fin (p : R) : 0 < p < 1 -> norm_ppf (Fin p) = Fin (Phi_inv p).
Proof.
  intros [H0 H1]. simpl.
  destruct (total_order_T 0 p) as [[H | H] | H]; try lra.
  destruct (total_order_T p 1) as [[H' | H'] | H']; try lra.
  reflexivity.
Qed.

(** ** The stress transform, row by row *)

Lemma stressed_pd_col_nth base ci tr i b c t :
  nth_error base i = Some b ->
  nth_error ci i = Some c ->
  nth_error tr i = Some t ->
  nth_error (stressed_pd_col base ci tr) i = Some (stressed_pd_cell b c t).
Proof.
  intros Hb Hc Ht. unfold stressed_pd_col, stressed_pd_cell.
  apply (nth_error_map_some (fun v => np_minimum v (Fin 0.999))).
  unfold s_mul. apply nth_error_zip_with; [exact Hb |].
  unfold c_add_s. apply (nth_error_map_some (fun v => fadd (Fin 1) v)).
  apply nth_error_zip_with.
  - unfold shock_impact, s_div_c, s_mul_c.
    apply (nth_error_map_some (fun v => fdiv v (Fin 1000000))).
    now apply (nth_error_map_some (fun v => fmul v (Fin carbon_tax))).
  - unfold c_sub_s. now apply (nth_error_map_some (fun v => fsub (Fin 1) v)).
Qed.

Lemma stressed_pd_cell_fin (b c t : R) :
  stressed_pd_cell (Fin b) (Fin c) (Fin t) = Fin (spec_stressed_pd b c t).
Proof.
  unfold stressed_pd_cell, spec_stressed_pd, carbon_tax.
  cbn [fmul]. rewrite fdiv_fin by lra. reflexivity.
Qed.

Lemma net_income_col_nth e ir sp l i ve vir vsp vl :
  nth_error e i = Some ve ->
  nth_error ir i = Some vir ->
  nth_error sp i = Some vsp ->
  nth_error l i = Some vl ->
  nth_error (net_income_col e ir sp l) i
  = Some (fsub (fmul ve vir) (fmul (fmul ve vsp) vl)).
Proof.
  intros He Hir Hsp Hl. unfold net_income_col, s_sub, s_mul.
  repeat (apply nth_error_zip_with; try assumption).
Qed.

Lemma Rmin_999_eval (u : R) : 0.999 <= u -> Rmin u 0.999 = 0.999.
Proof. intros H. unfold Rmin. destruct (Rle_dec u 0.999); lra. Qed.









(** ** Net income and its sign *)

Lemma Rabs_le_between (a b : R) : Rabs a <= b -> - b <= a <= b.
Proof.
  intros H. pose proof (Rle_abs a) as H1. pose proof (Rle_abs (- a)) as H2.
  rewrite Rabs_Ropp in H2. lra.
Qed.

Lemma rel_err_bounds u rnd x :
  rel_err u rnd x -> x - u * Rabs x <= rnd x <= x + u * Rabs x.
Proof.
  unfold rel_err. intros H.
  apply Rabs_le_between in H. lra.
Qed.

Lemma rel_err_sign u rnd x :
  0 <= u < 1 -> rel_err u rnd x -> (rnd x < 0 <-> x < 0).
Proof.
  intros Hu H. apply rel_err_bounds in H.
  pose proof (Rabs_pos x) as Hp.
  destruct (Rle_or_lt 0 x) as [Hx | Hx].
  - rewrite (Rabs_right x) in H by lra. split; intros; nra.
  - rewrite (Rabs_left x) in H by lra. split; intros; nra.
Qed.

Lemma rel_err_exact u x : 0 <= u -> rel_err u (fun y => y) x.
Proof.
  intros Hu. unfold rel_err. replace (x - x) with 0 by ring.
  rewrite Rabs_R0. pose proof (Rabs_pos x). nra.
Qed.

Lemma net_income_rounded_bounds u rnd e ir sp l :
  0 < e -> 0 <= u ->
  rel_err u rnd (e * ir) -> rel_err u rnd (e * sp) ->
  rel_err u rnd (rnd (e * sp) * l) ->
  e * (ir - u * Rabs ir) <= rnd (e * ir) <= e * (ir + u * Rabs ir) /\
  e * (sp * l - (2 * u + u * u) * Rabs (sp * l))
  <= rnd (rnd (e * sp) * l)
  <= e * (sp * l + (2 * u + u * u) * Rabs (sp * l)).
Proof.
  intros He Hu HA HB' HB.
  apply rel_err_bounds in HA, HB', HB.
  rewrite Rabs_mult, (Rabs_right e) in HA, HB' by lra.
  rewrite Rabs_mult in HB.
  rewrite (Rabs_mult sp l).
  set (B' := rnd (e * sp)) in *. set (B := rnd (B' * l)) in *.
  set (A := rnd (e * ir)) in *.
  pose proof (Rabs_pos sp) as Hsp. pose proof (Rabs_pos l) as Hl.
  pose proof (Rabs_pos ir) as Hir.
  assert (HaB' : Rabs B' <= (1 + u) * (e * Rabs sp)).
  { apply Rabs_le. pose proof (Rle_abs sp). pose proof (Rle_abs (- sp)).
    rewrite Rabs_Ropp in *. split; nra. }
  assert (Hd : Rabs (B' * l - e * sp * l) <= u * (e * Rabs sp) * Rabs l).
  { replace (B' * l - e * sp * l) with ((B' - e * sp) * l) by ring.
    rewrite Rabs_mult. apply Rmult_le_compat_r; [exact Hl |].
    apply Rabs_le. lra. }
  apply Rabs_le_between in Hd.
  assert (Hm : u * (Rabs B' * Rabs l)
               <= u * ((1 + u) * (e * Rabs sp) * Rabs l)).
  { apply Rmult_le_compat_l; [lra |]. apply Rmult_le_compat_r; lra. }
  split; [lra |]. split; nra.
Qed.




(** ** The columns of a frame *)

Lemma columns_df_set df k c k' :
  In k' (columns (df_set df k c)) <-> k' = k \/ In k' (columns df).
Proof.
  unfold columns. induction df as [| [k0 c0] df IH]; simpl.
  - intuition.
  - destruct (String.eqb k k0) eqn:E; simpl.
    + apply String.eqb_eq in E. subst k0. intuition.
    + rewrite IH. intuition.
Qed.

Lemma columns_fillna df : columns (fillna df) = columns df.
Proof.
  unfold columns, fillna. rewrite map_map. reflexivity.
Qed.

Lemma df_get_df_set_same df k c : df_get (df_set df k c) k = Some c.
Proof.
  induction df as [| [k' c'] df IH]; simpl.
  - now rewrite String.eqb_refl.
  - destruct (String.eqb k k') eqn:E; simpl; rewrite E; auto.
Qed.

Lemma df_get_fillna df k :
  df_get (fillna df) k = option_map fillna_col (df_get df k).
Proof.
  induction df as [| [k' c'] df IH]; simpl; [reflexivity |].
  destruct (String.eqb k k'); [reflexivity | exact IH].
Qed.

Lemma part_b_columns draws df df' k :
  part_b draws df = Some df' ->
  In k (columns df') <->
  (k = "Current_Capital" \/ k = "Current_RWA" \/ k = "Base_PD")%string
  \/ In k (columns df).
Proof.
  unfold part_b. intros H.
  repeat match type of H with
         | match ?c with Some _ => _ | None => _ end = _ =>
             destruct c; [| discriminate H]
         end.
  injection H as <-. rewrite !columns_df_set. intuition.
Qed.

Lemma part_c_stress_columns df df' k :
  part_c_stress df = Some df' ->
  In k (columns df') <->
  (k = "Net_Income" \/ k = "Stressed_Capital" \/ k = "Stressed_RWA"
   \/ k = "Stressed_PD")%string
  \/ In k (columns df).
Proof.
  unfold part_c_stress. intros H.
  repeat match type of H with
         | match ?c with Some _ => _ | None => _ end = _ =>
             destruct c; [| discriminate H]
         end.
  injection H as <-. rewrite !columns_df_set. intuition.
Qed.

(** ** The two branches of [report] *)

Lemma report_failure res w :
  success res = false ->
  report res w = Some (print (Line ("Optimization Failed: " ++ message res)) w).
Proof.
  intros H. unfold report. now rewrite H.
Qed.

Lemma report_success res w w' :
  success res = true ->
  report res w = Some w' ->
  files w' = files w ++ [("final_strategy_output.csv"%string, frame w')] /\
  df_get (frame w') "Optimized_Retention" = Some (NumCol (x res)) /\
  df_get (frame w') "Strategy" = Some (StrCol (map strategy_of (x res))) /\
  (forall k, In k (columns (frame w')) <->
             (k = "Strategy" \/ k = "Optimized_Retention")%string
             \/ In k (columns (frame w))).
Proof.
  intros Hs H. unfold report in H. rewrite Hs in H.
  destruct (negb _); [discriminate H |].
  rewrite num_df_set_same in H.
  repeat match type of H with
         | match ?c with Some _ => _ | None => _ end = _ =>
             destruct c; [| discriminate H]
         end.
  injection H as <-. cbn [files frame to_csv print set_frame].
  repeat split.
  - rewrite df_get_df_set_other by discriminate.
    apply df_get_df_set_same.
  - apply df_get_df_set_same.
  - rewrite !columns_df_set. intuition.
  - rewrite !columns_df_set. intuition.
Qed.

Lemma main_script_inv linprog draws df w :
  main_script linprog draws df = Some w ->
  exists df1 df2 lp,
    part_b draws df = Some df1 /\
    part_c_stress df1 = Some df2 /\
    lp_problem (fillna df2) = Some lp /\
    report (linprog lp)
      {| frame := fillna df2;
         console :=
           [Line "Applying NGFS Disorderly Transition Scenario ($50/ton Carbon Tax)...";
            Line "Running Linear Optimization Solver..."];
         files := [] |} = Some w.
Proof.
  unfold main_script. intros H.
  destruct (part_b draws df) as [df1 |] eqn:E1; [| discriminate H].
  cbn [frame print] in H.
  destruct (part_c_stress df1) as [df2 |] eqn:E2; [| discriminate H].
  cbn [frame print set_frame console files app] in H.
  destruct (lp_problem (fillna df2)) as [lp |] eqn:E3; [| discriminate H].
  exists df1, df2, lp. repeat split; assumption.
Qed.

Lemma df_get_not_in df k : ~ In k (columns df) -> df_get df k = None.
Proof.
  unfold columns. induction df as [| [k' c] df IH]; simpl; intros H.
  - reflexivity.
  - destruct (String.eqb k k') eqn:E.
    + apply String.eqb_eq in E. subst k'. exfalso. apply H. now left.
    + apply IH. intros Hin. apply H. now right.
Qed.

(** C7.  When the solver does not succeed the script prints the failure
    with the solver's message and nothing else happens: the frame is the
    stressed frame that was handed to the solver, it has no
    [Optimized_Retention] and no [Strategy] column unless the loaded table
    had one, the console holds the two progress lines and the failure
    line, so no ROE line, and no file is written.  A file is written only
    on success, and it then holds every derived column. *)
Theorem C7_failure_writes_nothing :
  forall linprog draws df w,
    main_script linprog draws df = Some w ->
    exists df1 df2 lp,
      part_b draws df = Some df1 /\
      part_c_stress df1 = Some df2 /\
      lp_problem (fillna df2) = Some lp /\
      (success (linprog lp) = false ->
       frame w = fillna df2 /\
       (forall k, In k ["Optimized_Retention"; "Strategy"]%string ->
                  ~ In k (columns df) ->
                  df_get (frame w) k = None) /\
       files w = [] /\
       Forall is_text (console w) /\
       console w
       = [Line "Applying NGFS Disorderly Transition Scenario ($50/ton Carbon Tax)...";
          Line "Running Linear Optimization Solver...";
          Line ("Optimization Failed: " ++ message (linprog lp))]) /\
      (files w <> [] ->
       success (linprog lp) = true /\
       files w = [("final_strategy_output.csv"%string, frame w)] /\
       Forall (fun k => In k (columns (frame w))) derived_columns).
Proof.
  intros linprog draws df w H.
  destruct (main_script_inv _ _ _ _ H) as (df1 & df2 & lp & Hb & Hc & Hlp & Hr).
  exists df1, df2, lp.
  split; [exact Hb |]. split; [exact Hc |]. split; [exact Hlp |]. split.
  - intros Hfail. rewrite (report_failure _ _ Hfail) in Hr.
    injection Hr as <-. cbn [frame files console print app].
    split; [reflexivity |]. split; [| split; [reflexivity | split]].
    + intros k Hk Hno. apply df_get_not_in. rewrite columns_fillna.
      rewrite (part_c_stress_columns _ _ k Hc).
      rewrite (part_b_columns _ _ _ k Hb).
      simpl in Hk.
      intros [Hd | [Hd | Hd]];
        [ | | contradiction ];
        destruct Hk as [<- | [<- | []]];
        repeat destruct Hd as [Hd | Hd]; discriminate Hd.
    + repeat constructor.
    + reflexivity.
  - intros Hfiles.
    destruct (success (linprog lp)) eqn:Hs.
    + destruct (report_success _ _ _ Hs Hr) as (Hf & _ & _ & Hcols).
      cbn [files frame app] in Hf, Hcols.
      split; [reflexivity |]. split; [exact Hf |].
      assert (Hin : forall k,
                 In k derived_columns -> In k (columns (frame w))).
      { intros k Hk. apply Hcols. rewrite columns_fillna.
        rewrite (part_c_stress_columns _ _ k Hc).
        rewrite (part_b_columns _ _ _ k Hb).
        unfold derived_columns in Hk. simpl in Hk. intuition. }
      apply Forall_forall. exact Hin.
    + rewrite (report_failure _ _ Hs) in Hr. injection Hr as <-.
      cbn in Hfiles. contradiction.
Qed.

Lemma C7_failure_writes_nothing_witness :
  exists w,
    main_script infeasible_solver [Fin 0.03] demo_frame = Some w /\
    exists df1 df2 lp,
      part_b [Fin 0.03] demo_frame = Some df1 /\
      part_c_stress df1 = Some df2 /\
      lp_problem (fillna df2) = Some lp /\
      (success (infeasible_solver lp) = false ->
       frame w = fillna df2 /\
       (forall k, In k ["Optimized_Retention"; "Strategy"]%string ->
                  ~ In k (columns demo_frame) ->
                  df_get (frame w) k = None) /\
       files w = [] /\
       Forall is_text (console w) /\
       console w
       = [Line "Applying NGFS Disorderly Transition Scenario ($50/ton Carbon Tax)...";
          Line "Running Linear Optimization Solver...";
          Line ("Optimization Failed: " ++ message (infeasible_solver lp))]) /\
      (files w <> [] ->
       success (infeasible_solver lp) = true /\
       files w = [("final_strategy_output.csv"%string, frame w)] /\
       Forall (fun k => In k (columns (frame w))) derived_columns).
Proof.
  eexists. split.
  - reflexivity.
  - apply (C7_failure_writes_nothing infeasible_solver [Fin 0.03] demo_frame).
    reflexivity.
Defined.

(** ** Sums over finite columns *)

Lemma fold_left_fadd_Fin (l : list R) (a : R) :
  fold_left fadd (map Fin l) (Fin a) = Fin (a + Rsum l).
Proof.
  revert a. induction l as [| u l IH]; intros a; simpl.
  - f_equal. lra.
  - rewrite IH. f_equal. lra.
Qed.

Lemma filter_not_nan_Fin (l : list R) :
  filter (fun v => negb (is_nan v)) (map Fin l) = map Fin l.
Proof.
  induction l as [| u l IH]; simpl; [reflexivity | now rewrite IH].
Qed.

Lemma s_sum_Fin (l : list R) : s_sum (map Fin l) = Fin (Rsum l).
Proof.
  unfold s_sum. rewrite filter_not_nan_Fin, fold_left_fadd_Fin.
  f_equal. lra.
Qed.

Lemma f_dot_Fin (a b : list R) :
  f_dot (map Fin a) (map Fin b) = Fin (Rdot a b).
Proof.
  unfold f_dot, Rdot.
  rewrite (zip_with_map_Fin fmul Rmult) by reflexivity.
  rewrite fold_left_fadd_Fin. f_equal. lra.
Qed.

Lemma c_mul_s_Fin (c : R) (a : list R) :
  c_mul_s (Fin c) (map Fin a) = map Fin (map (Rmult c) a).
Proof.
  unfold c_mul_s. rewrite !map_map. reflexivity.
Qed.

Lemma Rdot_comm (a b : list R) : Rdot a b = Rdot b a.
Proof.
  unfold Rdot. revert b. induction a as [| u a IH]; intros [| v b]; simpl;
    try reflexivity.
  rewrite IH. lra.
Qed.

Lemma Rdot_opp_l (a b : list R) : Rdot (map (Rmult (-1)) a) b = - Rdot a b.
Proof.
  unfold Rdot. revert b. induction a as [| u a IH]; intros [| v b]; simpl;
    try lra.
  rewrite IH. lra.
Qed.

(** Entries that lie between the bounds 0 and 1 are finite. *)
Lemma unit_bounds_finite (n : nat) (sol : Series) :
  Forall2 (fun bd v => fle (fst bd) v /\ fle v (snd bd))
    (repeat (Fin 0, Fin 1) n) sol ->
  exists xs : list R,
    sol = map Fin xs /\ Forall (fun v => 0 <= v <= 1) xs.
Proof.
  revert sol. induction n as [| n IH]; intros sol H; simpl in H.
  - inversion H; subst. exists []. split; [reflexivity | constructor].
  - inversion H as [| bd v bds sol' [Hlo Hhi] Hrest]; subst.
    destruct (IH _ Hrest) as (xs & -> & Hxs).
    destruct v as [u | | |]; simpl in Hlo, Hhi; try contradiction.
    exists (u :: xs). split; [reflexivity |]. constructor; [lra | exact Hxs].
Qed.

(** C6.  When the solver succeeds, the retention column the script writes
    meets the capital ceiling, the volume floor and the unit bounds. *)
Theorem C6_retention_feasible :
  forall (linprog : LinProg -> OptimizeResult) (w w' : World) (lp : LinProg)
         (ni sc e cc : list R),
    linprog_contract linprog ->
    num (frame w) "Net_Income" = Some (map Fin ni) ->
    num (frame w) "Stressed_Capital" = Some (map Fin sc) ->
    num (frame w) "Exposure_INR_Cr" = Some (map Fin e) ->
    num (frame w) "Current_Capital" = Some (map Fin cc) ->
    lp_problem (frame w) = Some lp ->
    success (linprog lp) = true ->
    report (linprog lp) w = Some w' ->
    exists xs : list R,
      num (frame w') "Optimized_Retention" = Some (map Fin xs) /\
      List.length xs = List.length ni /\
      Rdot xs sc <= 1.10 * Rsum cc /\
      Rdot xs e >= 0.85 * Rsum e /\
      Forall (fun v => 0 <= v <= 1) xs.
Proof.
  intros linprog w w' lp ni sc e cc Hcontract Hni Hsc He Hcc Hlp Hs Hr.
  specialize (Hcontract lp Hs). destruct Hcontract as (Hlen & HA & Hbd).
  unfold lp_problem in Hlp. rewrite Hni, Hsc, He, Hcc in Hlp.
  injection Hlp as <-. cbn [lp_c lp_A_ub lp_b_ub lp_bounds] in *.
  destruct (unit_bounds_finite _ _ Hbd) as (xs & Hx & Hxs).
  destruct (report_success _ _ _ Hs Hr) as (_ & Hget & _ & _).
  exists xs. split; [| split; [| split; [| split]]].
  - unfold num. now rewrite Hget, Hx.
  - rewrite Hx in Hlen. rewrite c_mul_s_Fin in Hlen.
    now rewrite !length_map in Hlen.
  - inversion HA as [| r1 b1 rs bs H1 Hrest]; subst.
    rewrite Hx, f_dot_Fin, s_sum_Fin in H1. cbn in H1.
    rewrite Rdot_comm. lra.
  - inversion HA as [| r1 b1 rs bs _ Hrest]; subst.
    inversion Hrest as [| r2 b2 rs' bs' H2 _]; subst.
    rewrite Hx, c_mul_s_Fin, f_dot_Fin, s_sum_Fin in H2. cbn in H2.
    rewrite Rdot_opp_l in H2. rewrite Rdot_comm. lra.
  - exact Hxs.
Qed.

Lemma keep_all_solver_contract : linprog_contract keep_all_solver.
Proof.
  intros lp. unfold keep_all_solver.
  destruct (excluded_middle_informative _) as [Hf | Hf]; simpl.
  - intros _. exact Hf.
  - discriminate.
Qed.

Lemma demo_lp_problem : lp_problem demo_stressed_frame = Some demo_lp.
Proof. reflexivity. Qed.

Lemma demo_lp_keep_all :
  lp_feasible demo_lp (map (fun _ => Fin 1) (lp_c demo_lp)).
Proof.
  unfold lp_feasible, demo_lp. cbn.
  split; [reflexivity |]. split; repeat constructor; cbn; lra.
Qed.

Lemma demo_lp_solved : success (keep_all_solver demo_lp) = true.
Proof.
  unfold keep_all_solver.
  destruct (excluded_middle_informative _) as [Hf | Hf]; [reflexivity |].
  exfalso. apply Hf. exact demo_lp_keep_all.
Qed.

Lemma demo_report :
  exists w', report (keep_all_solver demo_lp) demo_world = Some w'.
Proof.
  unfold report, keep_all_solver.
  destruct (excluded_middle_informative _) as [Hf | Hf].
  - cbn. eauto.
  - exfalso. apply Hf. exact demo_lp_keep_all.
Qed.

Lemma C6_retention_feasible_witness :
  exists w' xs,
    report (keep_all_solver demo_lp) demo_world = Some w' /\
    num (frame w') "Optimized_Retention" = Some (map Fin xs) /\
    List.length xs = List.length [5] /\
    Rdot xs [1] <= 1.10 * Rsum [1] /\
    Rdot xs [100] >= 0.85 * Rsum [100] /\
    Forall (fun v => 0 <= v <= 1) xs.
Proof.
  destruct demo_report as [w' Hw'].
  destruct (C6_retention_feasible keep_all_solver demo_world w' demo_lp
              [5] [1] [100] [1]
              keep_all_solver_contract eq_refl eq_refl eq_refl eq_refl
              demo_lp_problem demo_lp_solved Hw') as (xs & H).
  exists w', xs. split; [exact Hw' | exact H].
Defined.

(** ** The stress stage on frames *)

Lemma part_c_stress_spec df df' :
  part_c_stress df = Some df' ->
  exists ci base tr e l m ir,
    num df "Carbon_Intensity" = Some ci /\
    num df "Base_PD" = Some base /\
    num df "Transition_Readiness" = Some tr /\
    num df "Exposure_INR_Cr" = Some e /\
    num df "LGD" = Some l /\
    num df "Maturity_Years" = Some m /\
    num df "Interest_Rate" = Some ir /\
    num df' "Stressed_PD" = Some (stressed_pd_col base ci tr) /\
    num df' "Stressed_Capital"
    = Some (s_mul_c (calculate_rwa_col e (stressed_pd_col base ci tr) l m)
              (Fin CET1_ratio)) /\
    num df' "Net_Income"
    = Some (net_income_col e ir (stressed_pd_col base ci tr) l) /\
    num df' "Exposure_INR_Cr" = Some e /\
    num df' "Current_Capital" = num df "Current_Capital".
Proof.
  unfold part_c_stress. intros H.
  repeat (cbv beta iota zeta in H;
          repeat first [ rewrite num_df_set_same in H
                       | rewrite num_df_set_other in H by discriminate ];
          try next_column H).
  injection H as <-.
  do 7 eexists.
  repeat (split; [eassumption |]).
  repeat split;
    repeat first [ rewrite num_df_set_same
                 | rewrite num_df_set_other by discriminate ];
    auto.
Qed.

Lemma num_fillna df k :
  num (fillna df) k = option_map (map fillna_cell) (num df k).
Proof.
  unfold num. rewrite df_get_fillna.
  destruct (df_get df k) as [[v | v] |]; reflexivity.
Qed.

(** What the anomaly pass does achieve: no NaN is left in a numeric
    column, and finite entries are untouched. *)
Lemma fillna_no_nan df k v :
  num (fillna df) k = Some v -> Forall (fun c => is_nan c = false) v.
Proof.
  rewrite num_fillna. destruct (num df k) as [u |]; [| discriminate].
  intros [= <-]. apply Forall_forall. intros c Hc.
  apply in_map_iff in Hc. destruct Hc as (c0 & <- & _).
  now destruct c0.
Qed.

Lemma fillna_cell_finite (u : R) : fillna_cell (Fin u) = Fin u.
Proof. reflexivity. Qed.

Lemma fmul_fin_pinf (u : R) : 0 < u -> fmul (Fin u) PInf = PInf.
Proof.
  intros Hu. cbn. unfold inf_times.
  destruct (total_order_T 0 u) as [[H | H] | H]; try lra. reflexivity.
Qed.

(** C8, the missed case.  A row whose interest rate is +inf has the net
    income +inf; [fillna] leaves it in place, and the objective handed to
    the solver holds -inf in that row. *)
Theorem C8_infinity_reaches_solver :
  forall (df df2 : DataFrame) (lp : LinProg) (i : nat)
         (exposure rate lgd base ci tr : Series) (e l b c t : R),
    part_c_stress df = Some df2 ->
    lp_problem (fillna df2) = Some lp ->
    num df "Exposure_INR_Cr" = Some exposure ->
    num df "Interest_Rate" = Some rate ->
    num df "LGD" = Some lgd ->
    num df "Base_PD" = Some base ->
    num df "Carbon_Intensity" = Some ci ->
    num df "Transition_Readiness" = Some tr ->
    nth_error exposure i = Some (Fin e) ->
    nth_error rate i = Some PInf ->
    nth_error lgd i = Some (Fin l) ->
    nth_error base i = Some (Fin b) ->
    nth_error ci i = Some (Fin c) ->
    nth_error tr i = Some (Fin t) ->
    0 < e ->
    exists ni,
      num (fillna df2) "Net_Income" = Some ni /\
      nth_error ni i = Some PInf /\
      nth_error (lp_c lp) i = Some NInf /\
      is_finite PInf = false.
Proof.
  intros df df2 lp i exposure rate lgd base ci tr e l b c t
         Hs Hlp He Hr Hl Hb Hc Ht Ne Nr Nl Nb Nc Nt Hpos.
  destruct (part_c_stress_spec _ _ Hs)
    as (ci' & base' & tr' & e' & l' & m' & ir' & Eci & Eb & Et & Ee & El
        & Em & Eir & Hsp & Hsc & Hni & Hex & Hcc).
  rewrite He in Ee. rewrite Hr in Eir. rewrite Hl in El. rewrite Hb in Eb.
  rewrite Hc in Eci. rewrite Ht in Et.
  injection Ee as <-. injection Eir as <-. injection El as <-.
  injection Eb as <-. injection Eci as <-. injection Et as <-.
  pose proof (stressed_pd_col_nth _ _ _ _ _ _ _ Nb Nc Nt) as Nsp.
  rewrite stressed_pd_cell_fin in Nsp.
  pose proof (net_income_col_nth _ _ _ _ _ _ _ _ _ Ne Nr Nsp Nl) as Nni.
  rewrite (fmul_fin_pinf _ Hpos) in Nni. cbn in Nni.
  assert (Hni' : num (fillna df2) "Net_Income"
                 = Some (map fillna_cell
                           (net_income_col exposure rate
                              (stressed_pd_col base ci tr) lgd))).
  { rewrite num_fillna, Hni. reflexivity. }
  exists (map fillna_cell
            (net_income_col exposure rate (stressed_pd_col base ci tr) lgd)).
  split; [exact Hni' |]. split; [| split; [| reflexivity]].
  - apply (nth_error_map_some fillna_cell) in Nni. exact Nni.
  - unfold lp_problem in Hlp. rewrite Hni' in Hlp.
    repeat next_column Hlp. injection Hlp as <-. cbn [lp_c].
    unfold c_mul_s.
    apply (nth_error_map_some fillna_cell) in Nni.
    apply (nth_error_map_some (fun v => fmul (Fin (-1)) v)) in Nni.
    rewrite Nni. f_equal. cbn. unfold inf_times.
    destruct (total_order_T 0 (-1)) as [[H | H] | H]; try lra. reflexivity.
Qed.

Lemma C8_infinity_reaches_solver_witness :
  exists df2 lp ni,
    part_c_stress demo_inf_frame = Some df2 /\
    lp_problem (fillna df2) = Some lp /\
    0 < 100 /\
    num (fillna df2) "Net_Income" = Some ni /\
    nth_error ni 0 = Some PInf /\
    nth_error (lp_c lp) 0 = Some NInf /\
    is_finite PInf = false.
Proof.
  assert (Hs : exists df2, part_c_stress demo_inf_frame = Some df2).
  { eexists. reflexivity. }
  destruct Hs as [df2 Hs].
  assert (Hlp : exists lp, lp_problem (fillna df2) = Some lp).
  { destruct (part_c_stress_spec _ _ Hs)
      as (ci & base & tr & e & l & m & ir & _ & _ & _ & _ & _ & _ & _ & _
          & Hsc & Hni & Hex & Hcc).
    unfold lp_problem. rewrite !num_fillna, Hni, Hsc, Hex, Hcc. cbn.
    eexists. reflexivity. }
  destruct Hlp as [lp Hlp].
  assert (Hpos : 0 < 100) by lra.
  destruct (C8_infinity_reaches_solver demo_inf_frame df2 lp 0
              [Fin 100] [PInf] [Fin 0.45] [Fin 0.048] [Fin 1800] [Fin 0.4]
              100 0.45 0.048 1800 0.4
              Hs Hlp eq_refl eq_refl eq_refl eq_refl eq_refl eq_refl
              eq_refl eq_refl eq_refl eq_refl eq_refl eq_refl Hpos)
    as (ni & H).
  exists df2, lp, ni. split; [exact Hs |]. split; [exact Hlp |].
  split; [exact Hpos | exact H].
Defined.

(** ** The floor on the probability of default *)

Lemma calculate_rwa_traced_value e pd l m :
  fst (calculate_rwa_traced e pd l m) = calculate_rwa e pd l m.
Proof. reflexivity. Qed.

(** The calls [calculate_rwa] makes, whatever its arguments. *)
Lemma calculate_rwa_trace e pd l m :
  exists d1 d2 a1 a2 d3 d4,
    snd (calculate_rwa_traced e pd l m)
    = [CallDiv d1; CallDiv d2;
       CallLog (np_maximum pd (Fin 0.0003));
       CallPpf (np_maximum pd (Fin 0.0003));
       CallPpf (Fin 0.999);
       CallSqrt a1; CallSqrt a2; CallDiv d3; CallDiv d4].
Proof.
  do 6 eexists. reflexivity.
Qed.

Lemma floor_pd_fin (pd : R) :
  np_maximum (Fin pd) (Fin 0.0003) = Fin (Rmax pd 0.0003).
Proof. reflexivity. Qed.



(** The floor also holds without the bound on [pd]: the argument passed on
    is [max pd 0.0003] for every finite [pd]. *)
Lemma log_ppf_args_floored (exposure lgd maturity : fnum) (pd : R) :
  log_ppf_args (snd (calculate_rwa_traced exposure (Fin pd) lgd maturity))
  = [Fin (Rmax pd 0.0003); Fin (Rmax pd 0.0003); Fin 0.999].
Proof.
  destruct (calculate_rwa_trace exposure (Fin pd) lgd maturity)
    as (d1 & d2 & a1 & a2 & d3 & d4 & ->).
  reflexivity.
Qed.

(* ================================================================== *)
(** ** The normal distribution function *)

Lemma gauss_pos t : 0 < gauss t.
Proof. apply exp_pos. Qed.

Lemma gauss_le_1 t : gauss t <= 1.
Proof.
  unfold gauss. rewrite <- exp_0.
  destruct (Req_dec t 0) as [-> | Ht].
  - right. f_equal. lra.
  - left. apply exp_increasing. nra.
Qed.

Lemma gauss_decr a b : 0 <= a <= b -> gauss b <= gauss a.
Proof.
  intros [Ha Hab]. unfold gauss.
  destruct (Req_dec a b) as [-> | Hne]; [lra |].
  left. apply exp_increasing. nra.
Qed.

Lemma gauss_int_0 : gauss_int 0 = 0.
Proof. unfold gauss_int. apply RiemannInt_P9. Qed.

Lemma gauss_int_diff a b :
  gauss_int b - gauss_int a = RiemannInt (gauss_integrable a b).
Proof.
  unfold gauss_int.
  rewrite <- (RiemannInt_P26 (gauss_integrable 0 a) (gauss_integrable a b)
                (gauss_integrable 0 b)).
  ring.
Qed.

Lemma gauss_int_bounds a b lo hi :
  a <= b ->
  (forall t, a < t < b -> lo <= gauss t <= hi) ->
  lo * (b - a) <= gauss_int b - gauss_int a <= hi * (b - a).
Proof.
  intros Hab H. rewrite gauss_int_diff.
  now apply RiemannInt_const_bound.
Qed.

Lemma sqrt_2PI_bounds : 2.5065 <= sqrt (2 * PI) <= 2.50665.
Proof.
  assert (Hup : PI <= 3.1416).
  { pose proof (PI_2_3_7_ineq 2) as [_ H].
    unfold sum_f_R0, tg_alt, PI_2_3_7_tg, Ratan_seq in H. simpl in H. lra. }
  assert (Hlo : 3.1415 <= PI).
  { pose proof (PI_2_3_7_ineq 2) as [H _].
    unfold sum_f_R0, tg_alt, PI_2_3_7_tg, Ratan_seq in H. simpl in H. lra. }
  split.
  - rewrite <- (sqrt_square 2.5065) by lra. apply sqrt_le_1_alt. lra.
  - rewrite <- (sqrt_square 2.50665) by lra. apply sqrt_le_1_alt. lra.
Qed.

Lemma sqrt_2PI_pos : 0 < sqrt (2 * PI).
Proof. pose proof sqrt_2PI_bounds. lra. Qed.

Lemma Phi_0 : Phi 0 = 1 / 2.
Proof. unfold Phi. rewrite gauss_int_0. unfold Rdiv. lra. Qed.

Lemma Phi_diff a b :
  Phi b - Phi a = (gauss_int b - gauss_int a) / sqrt (2 * PI).
Proof. unfold Phi. field. pose proof sqrt_2PI_pos. lra. Qed.

Lemma Phi_increasing a b : a < b -> Phi a < Phi b.
Proof.
  intros Hab.
  assert (H : exp (- (a * a + b * b) / 2) * (b - a)
              <= gauss_int b - gauss_int a).
  { apply (gauss_int_bounds a b _ 1); [lra |].
    intros t Ht. split; [| apply gauss_le_1].
    unfold gauss.
    destruct (Req_dec (t * t) (a * a + b * b)) as [E | E].
    - right. f_equal. lra.
    - left. apply exp_increasing.
      assert (t * t <= a * a + b * b).
      { destruct (Rle_dec 0 t); nra. }
      lra. }
  pose proof (exp_pos (- (a * a + b * b) / 2)) as Hp.
  pose proof sqrt_2PI_pos as Hs.
  assert (0 < Phi b - Phi a); [| lra].
  rewrite Phi_diff. apply Rdiv_lt_0_compat; [nra | exact Hs].
Qed.

Lemma Phi_injective a b : Phi a = Phi b -> a = b.
Proof.
  intros H. destruct (Rtotal_order a b) as [Hlt | [Heq | Hgt]].
  - apply Phi_increasing in Hlt. lra.
  - exact Heq.
  - apply Phi_increasing in Hgt. lra.
Qed.

Lemma Phi_inv_Phi x : Phi_inv (Phi x) = x.
Proof.
  unfold Phi_inv. apply Phi_injective.
  apply (epsilon_spec (inhabits 0) (fun y => Phi y = Phi x)).
  now exists x.
Qed.

Lemma Phi_Phi_inv p : (exists x, Phi x = p) -> Phi (Phi_inv p) = p.
Proof.
  intros H. unfold Phi_inv.
  exact (epsilon_spec (inhabits 0) (fun y => Phi y = p) H).
Qed.

(** [Phi] is Lipschitz: its density is at most 1 / sqrt (2 pi). *)
Lemma Phi_lipschitz a b : a <= b -> Phi b - Phi a <= (b - a) / sqrt (2 * PI).
Proof.
  intros Hab. rewrite Phi_diff.
  pose proof sqrt_2PI_pos as Hs.
  apply Rmult_le_compat_r; [left; now apply Rinv_0_lt_compat |].
  destruct (gauss_int_bounds a b 0 1 Hab) as [_ H]; [| lra].
  intros t _. split; [left; apply gauss_pos | apply gauss_le_1].
Qed.

Lemma Phi_continuity : continuity Phi.
Proof.
  intros x. unfold continuity_pt, continue_in, limit1_in, limit_in.
  intros eps Heps. exists eps. split; [exact Heps |].
  intros y [_ Hd]. simpl in *. unfold Rdist in *.
  pose proof sqrt_2PI_bounds as Hs.
  assert (Hk : forall a b, a <= b -> Phi b - Phi a <= b - a).
  { intros a b Hab. eapply Rle_trans; [now apply Phi_lipschitz |].
    apply Rmult_le_reg_r with (sqrt (2 * PI)); [lra |].
    unfold Rdiv. rewrite Rmult_assoc, Rinv_l by lra. nra. }
  destruct (Rle_dec x y) as [Hxy | Hxy].
  - assert (Phi x <= Phi y).
    { destruct Hxy as [Hlt | ->]; [left; now apply Phi_increasing | lra]. }
    specialize (Hk x y Hxy).
    rewrite Rabs_right by lra. rewrite Rabs_right in Hd by lra. lra.
  - assert (Hyx : y < x) by lra.
    pose proof (Phi_increasing _ _ Hyx).
    specialize (Hk y x (Rlt_le _ _ Hyx)).
    rewrite Rabs_left by lra. rewrite Rabs_left in Hd by lra. lra.
Qed.

(** Every level between two values of [Phi] is attained in between. *)
Lemma Phi_IVT a b p :
  a < b -> Phi a < p < Phi b -> exists x, a <= x <= b /\ Phi x = p.
Proof.
  intros Hab [Ha Hb].
  assert (Hc : continuity (fun x => Phi x - p)).
  { apply continuity_minus; [apply Phi_continuity |].
    apply continuity_const. intros u v. reflexivity. }
  destruct (IVT (fun x => Phi x - p) a b Hc Hab) as (z & Hz & Hz0);
    [lra | lra |].
  exists z. split; [exact Hz | lra].
Qed.
Lemma scale_pos : 0 < IZR scale.
Proof. apply IZR_lt. reflexivity. Qed.

Lemma fx_nonneg z : (0 <= z)%Z -> 0 <= fx z.
Proof.
  intros H. unfold fx. apply Rmult_le_pos.
  - now apply IZR_le.
  - apply Rlt_le, Rinv_0_lt_compat, scale_pos.
Qed.

Lemma fx_mul_nonneg a b : (0 <= a)%Z -> (0 <= b)%Z -> (0 <= fx_mul a b)%Z.
Proof.
  intros Ha Hb. unfold fx_mul. apply Z.div_pos; [nia | reflexivity].
Qed.

Lemma fx_mul_le a b :
  (0 <= a)%Z -> (0 <= b)%Z -> fx (fx_mul a b) <= fx a * fx b.
Proof.
  intros Ha Hb. unfold fx, fx_mul.
  assert (H : (scale * (a * b / scale) <= a * b)%Z).
  { apply Z.mul_div_le. reflexivity. }
  apply IZR_le in H. rewrite !mult_IZR in H.
  pose proof scale_pos as Hs.
  apply Rmult_le_reg_r with (IZR scale * IZR scale); [nra |].
  field_simplify; [| lra | lra]. nra.
Qed.

Lemma fx_add a b : fx (a + b) = fx a + fx b.
Proof. unfold fx. rewrite plus_IZR. field. pose proof scale_pos; lra. Qed.

Lemma fx_le a b : (a <= b)%Z -> fx a <= fx b.
Proof.
  intros H. unfold fx. apply Rmult_le_compat_r.
  - apply Rlt_le, Rinv_0_lt_compat, scale_pos.
  - now apply IZR_le.
Qed.

Lemma fx_sq_iter_le k z :
  (0 <= z)%Z -> 0 <= fx (fx_sq_iter k z) <= fx z ^ (2 ^ k).
Proof.
  revert z. induction k as [| k IH]; intros z Hz.
  - simpl. split; [now apply fx_nonneg | lra].
  - cbn [fx_sq_iter].
    destruct (IH (fx_mul z z) (fx_mul_nonneg _ _ Hz Hz)) as [H0 H1].
    split; [exact H0 |].
    eapply Rle_trans; [exact H1 |].
    replace (2 ^ S k)%nat with (2 * 2 ^ k)%nat by (simpl; lia).
    rewrite pow_mult.
    apply pow_incr. split.
    + apply fx_nonneg. now apply fx_mul_nonneg.
    + eapply Rle_trans; [apply fx_mul_le; assumption |]. simpl. lra.
Qed.

Lemma exp_pow_nat (y : R) (n : nat) : exp (INR n * y) = exp y ^ n.
Proof.
  induction n as [| n IH].
  - simpl. rewrite Rmult_0_l. apply exp_0.
  - rewrite S_INR, Rmult_plus_distr_r, Rmult_1_l, exp_plus, IH. simpl. ring.
Qed.

Lemma exp_ge_pow (x : R) (n : nat) :
  0 <= 1 + x -> (1 + x) ^ n <= exp (INR n * x).
Proof.
  intros H. rewrite exp_pow_nat. apply pow_incr. split; [exact H |].
  apply exp_ineq1_le.
Qed.

(** exp (2^k * (fx z - 1)) >= fx (fx_sq_iter k z) *)
Lemma exp_ge_fx k z :
  (0 <= z)%Z -> fx (fx_sq_iter k z) <= exp (INR (2 ^ k) * (fx z - 1)).
Proof.
  intros Hz. destruct (fx_sq_iter_le k z Hz) as [_ H].
  eapply Rle_trans; [exact H |].
  replace (fx z) with (1 + (fx z - 1)) at 1 by ring.
  apply exp_ge_pow. pose proof (fx_nonneg z Hz). lra.
Qed.

(** ** A lower Riemann sum of the density, in fixed point

    With the step h = 1/500 the value of [gauss] at k h is rho ^ (k * k)
    for rho = exp (- h * h / 2); the sum over the right end points of the
    subintervals bounds the integral from below since [gauss] decreases. *)

Lemma gauss_at_step (k : nat) :
  gauss (INR k * step_h) = exp (- / 500000) ^ (k * k).
Proof.
  unfold gauss, step_h. rewrite <- exp_pow_nat. f_equal.
  rewrite mult_INR. field.
Qed.

Lemma rho1_le : 0 <= fx rho1 <= exp (- / 500000).
Proof.
  split; [apply fx_nonneg; vm_compute; discriminate |].
  replace (fx rho1) with (1 + - / 500000).
  - apply exp_ineq1_le.
  - unfold fx, rho1, scale.
    change (10 ^ 18 - 2 * 10 ^ 12)%Z with 999998000000000000%Z.
    change (10 ^ 18)%Z with 1000000000000000000%Z. lra.
Qed.

Lemma rho2_le : 0 <= fx rho2 <= exp (- / 500000) ^ 2.
Proof.
  assert (H0 : (0 <= rho1)%Z) by (vm_compute; discriminate).
  destruct rho1_le as [Ha Hb].
  split; [apply fx_nonneg; now apply fx_mul_nonneg |].
  eapply Rle_trans; [apply fx_mul_le; assumption |]. simpl. nra.
Qed.

Lemma gauss_int_step (k : nat) :
  gauss_int (INR k * step_h) + step_h * gauss (INR (S k) * step_h)
  <= gauss_int (INR (S k) * step_h).
Proof.
  assert (Hh : 0 < step_h) by (unfold step_h; lra).
  pose proof (pos_INR k) as Hk.
  assert (Hab : INR k * step_h <= INR (S k) * step_h).
  { rewrite S_INR. nra. }
  destruct (gauss_int_bounds _ _ (gauss (INR (S k) * step_h)) 1 Hab) as [H _].
  - intros t Ht. split; [| apply gauss_le_1].
    apply gauss_decr. split; [nra | lra].
  - replace (INR (S k) * step_h - INR k * step_h) with step_h in H
      by (rewrite S_INR; ring).
    lra.
Qed.

Lemma gauss_sum_le (n k : nat) (p g acc : Z) :
  (0 <= p)%Z -> (0 <= g)%Z ->
  fx p <= exp (- / 500000) ^ (2 * k + 1) ->
  fx g <= exp (- / 500000) ^ (k * k) ->
  step_h * fx acc <= gauss_int (INR k * step_h) ->
  step_h * fx (gauss_sum n p g acc) <= gauss_int (INR (k + n) * step_h).
Proof.
  revert k p g acc. induction n as [| n IH]; intros k p g acc Hp Hg Bp Bg Bacc.
  - rewrite Nat.add_0_r. exact Bacc.
  - cbn [gauss_sum].
    replace (k + S n)%nat with (S k + n)%nat by lia.
    assert (Hrho : 0 < exp (- / 500000)) by apply exp_pos.
    assert (Hg' : fx (fx_mul g p) <= exp (- / 500000) ^ (S k * S k)).
    { eapply Rle_trans; [apply fx_mul_le; assumption |].
      replace (S k * S k)%nat with (k * k + (2 * k + 1))%nat by lia.
      rewrite pow_add.
      apply Rmult_le_compat; try assumption; now apply fx_nonneg. }
    apply IH.
    + apply fx_mul_nonneg; [assumption | vm_compute; discriminate].
    + now apply fx_mul_nonneg.
    + eapply Rle_trans.
      { apply fx_mul_le; [assumption | vm_compute; discriminate]. }
      replace (2 * S k + 1)%nat with ((2 * k + 1) + 2)%nat by lia.
      rewrite pow_add.
      apply Rmult_le_compat; try assumption.
      * now apply fx_nonneg.
      * apply rho2_le.
      * apply rho2_le.
    + exact Hg'.
    + rewrite fx_add, Rmult_plus_distr_l.
      eapply Rle_trans; [| apply gauss_int_step].
      apply Rplus_le_compat; [exact Bacc |].
      rewrite gauss_at_step.
      apply Rmult_le_compat_l; [unfold step_h; lra | exact Hg'].
Qed.

Lemma gauss_int_4 : 1.2522 <= gauss_int 4.
Proof.
  pose proof (gauss_sum_le 2000 0 rho1 scale 0) as H.
  replace (INR (0 + 2000) * step_h) with 4 in H.
  2:{ unfold step_h. rewrite INR_IZR_INZ. simpl. lra. }
  eapply Rle_trans; [| apply H].
  - assert (Z : (6261 * scale <= 10 * gauss_sum 2000 rho1 scale 0)%Z)
      by (vm_compute; discriminate).
    apply IZR_le in Z. rewrite !mult_IZR in Z.
    pose proof scale_pos as Hs. unfold step_h, fx.
    apply Rmult_le_reg_r with (IZR scale); [assumption |].
    unfold Rdiv. rewrite !Rmult_assoc, Rinv_l by lra. lra.
  - vm_compute; discriminate.
  - vm_compute; discriminate.
  - simpl. rewrite Rmult_1_r. apply rho1_le.
  - simpl. unfold fx. right. field. pose proof scale_pos; lra.
  - simpl. rewrite Rmult_0_l, gauss_int_0. unfold fx. simpl. lra.
Qed.

Lemma Phi_4 : 0.999 < Phi 4.
Proof.
  unfold Phi. pose proof gauss_int_4 as H. pose proof sqrt_2PI_bounds as Hs.
  assert (0.4995 <= gauss_int 4 / sqrt (2 * PI)); [| lra].
  apply Rmult_le_reg_r with (sqrt (2 * PI)); [lra |].
  unfold Rdiv. rewrite Rmult_assoc, Rinv_l by lra. nra.
Qed.

(** ** The logarithm at the floor *)

Lemma exp_le_mono (u v : R) : u <= v -> exp u <= exp v.
Proof.
  intros [H | ->]; [left; now apply exp_increasing | right; reflexivity].
Qed.

(** A certificate for [n / d <= exp U]: the fixed-point power is checked
    by computation. *)
Lemma exp_ge_check (k : nat) (z n d : Z) (U : R) :
  (0 <= z)%Z -> (0 < d)%Z ->
  INR (2 ^ k) * (fx z - 1) <= U ->
  (n * scale <= d * fx_sq_iter k z)%Z ->
  IZR n / IZR d <= exp U.
Proof.
  intros Hz Hd HU Hc.
  eapply Rle_trans; [| apply exp_le_mono, HU].
  eapply Rle_trans; [| apply exp_ge_fx, Hz].
  apply IZR_le in Hc. rewrite !mult_IZR in Hc.
  apply IZR_lt in Hd. pose proof scale_pos as Hs. unfold fx.
  apply Rmult_le_reg_r with (IZR d * IZR scale); [nra |].
  field_simplify; [| lra | lra]. nra.
Qed.

Lemma ln_floor_bounds : -8.114 < ln 0.0003 < -8.1.
Proof.
  split.
  - assert (H : IZR 333334 / IZR 100 <= exp 8.114).
    { apply (exp_ge_check 16 (scale + 123809814453125)).
      - vm_compute; discriminate.
      - reflexivity.
      - rewrite pow_INR. unfold fx. rewrite plus_IZR. simpl INR.
        unfold scale. change (10 ^ 18)%Z with 1000000000000000000%Z. lra.
      - vm_compute; discriminate. }
    apply exp_lt_inv. rewrite exp_ln by lra.
    assert (E : exp (-8.114) * exp 8.114 = 1).
    { rewrite <- exp_plus. replace (-8.114 + 8.114) with 0 by lra.
      apply exp_0. }
    pose proof (exp_pos (-8.114)) as Hp. nra.
  - assert (H : IZR 303 / IZR 1000000 <= exp (-8.1)).
    { apply (exp_ge_check 16 (scale - 123596191406250)).
      - vm_compute; discriminate.
      - reflexivity.
      - rewrite pow_INR. unfold fx. rewrite minus_IZR. simpl INR.
        unfold scale. change (10 ^ 18)%Z with 1000000000000000000%Z. lra.
      - vm_compute; discriminate. }
    apply exp_lt_inv. rewrite exp_ln by lra. lra.
Qed.

(** ** The maturity adjustment and the asset correlation on [0.0003, 1] *)

Lemma maturity_b_floor_value : 0.316 < maturity_b 0.0003 < 0.317.
Proof.
  unfold maturity_b. pose proof ln_floor_bounds as [Hlo Hhi].
  split; nra.
Qed.

Lemma maturity_b_le_floor (p : R) :
  0.0003 <= p <= 1 -> 0 <= maturity_b p <= maturity_b 0.0003.
Proof.
  intros [Hlo Hhi]. unfold maturity_b.
  assert (H1 : ln 0.0003 <= ln p).
  { destruct Hlo as [Hlt | <-]; [left; apply ln_increasing; lra | lra]. }
  assert (H2 : ln p <= 0).
  { rewrite <- ln_1. destruct Hhi as [Hlt | ->];
      [left; apply ln_increasing; lra | lra]. }
  pose proof ln_floor_bounds as [Hl _].
  split; nra.
Qed.

Lemma exp_m50_lt_1 : 0 < exp (-50) < 1.
Proof.
  split; [apply exp_pos |]. rewrite <- exp_0. apply exp_increasing. lra.
Qed.

Lemma asset_correlation_bounds (p : R) :
  0 < p <= 1 -> 0.12 <= asset_correlation p < 0.24.
Proof.
  intros [Hp0 Hp1]. unfold asset_correlation.
  pose proof exp_m50_lt_1 as [He0 He1].
  assert (Ha : exp (-50) <= exp (-50 * p)) by (apply exp_le_mono; nra).
  assert (Hb : exp (-50 * p) < 1).
  { rewrite <- exp_0. apply exp_increasing. nra. }
  set (w := (1 - exp (-50 * p)) / (1 - exp (-50))).
  assert (Hw : 0 < w <= 1).
  { unfold w. split.
    - apply Rdiv_lt_0_compat; lra.
    - apply Rmult_le_reg_r with (1 - exp (-50)); [lra |].
      unfold Rdiv. rewrite Rmult_assoc, Rinv_l by lra. lra. }
  cbv zeta. fold w. lra.
Qed.

(** ** [calculate_rwa] on finite arguments *)

Lemma corr_weight_fin (p : R) :
  fdiv (fsub (Fin 1) (np_exp (fmul (Fin (-50)) (Fin p))))
       (fsub (Fin 1) (np_exp (Fin (-50))))
  = Fin ((1 - exp (-50 * p)) / (1 - exp (-50))).
Proof.
  pose proof exp_m50_lt_1 as He.
  cbn [fmul fsub fadd fneg np_exp]. rewrite fdiv_fin by lra. reflexivity.
Qed.

Lemma calculate_rwa_fin (e pd l m : R) :
  pd < 1 ->
  calculate_rwa (Fin e) (Fin pd) (Fin l) (Fin m)
  = Fin (rwa_real e (Rmax pd 0.0003) l m).
Proof.
  intros Hpd. unfold calculate_rwa. rewrite floor_pd_fin.
  set (p := Rmax pd 0.0003).
  assert (Hp : 0.0003 <= p < 1).
  { unfold p. split; [apply Rmax_r | apply Rmax_lub_lt; lra]. }
  pose proof (asset_correlation_bounds p ltac:(lra)) as Hr.
  pose proof (maturity_b_le_floor p ltac:(lra)) as Hb.
  pose proof maturity_b_floor_value as Hb0.
  unfold asset_correlation in Hr. cbv zeta in Hr.
  unfold maturity_b in Hb, Hb0.
  cbv zeta. rewrite !corr_weight_fin.
  cbn [fmul fsub fadd fneg].
  rewrite np_log_fin by lra.
  rewrite (norm_ppf_fin p) by lra.
  rewrite (norm_ppf_fin 0.999) by lra.
  unfold fsquare. cbn [fmul fsub fadd fneg].
  rewrite !np_sqrt_fin by lra.
  cbn [fmul fsub fadd fneg].
  rewrite fdiv_fin.
  2:{ apply Rgt_not_eq. apply sqrt_lt_R0. lra. }
  cbn [norm_cdf fmul fsub fadd fneg].
  rewrite fdiv_fin by lra.
  cbn [fmul]. reflexivity.
Qed.

(** ** The divisions of [calculate_rwa] *)

Lemma calculate_rwa_divisors (e l m : fnum) (pd : R) :
  pd <= 1 ->
  divisors (snd (calculate_rwa_traced e (Fin pd) l m))
  = [Fin (1 - exp (-50)); Fin (1 - exp (-50));
     Fin (sqrt (1 - asset_correlation (Rmax pd 0.0003)));
     Fin (1 - 1.5 * maturity_b (Rmax pd 0.0003))].
Proof.
  intros Hpd. unfold calculate_rwa_traced. rewrite floor_pd_fin.
  set (p := Rmax pd 0.0003).
  assert (Hp : 0.0003 <= p <= 1).
  { unfold p. split; [apply Rmax_r | apply Rmax_lub; lra]. }
  pose proof (asset_correlation_bounds p ltac:(lra)) as Hr.
  unfold asset_correlation in Hr. cbv zeta in Hr.
  cbv beta iota zeta
      delta [tbind t_div t_log t_ppf t_sqrt tret divisors flat_map app snd fst].
  rewrite !corr_weight_fin.
  cbn [fmul fsub fadd fneg].
  rewrite np_log_fin by lra.
  unfold fsquare. cbn [fmul fsub fadd fneg].
  rewrite !np_sqrt_fin by lra.
  reflexivity.
Qed.

(** C10.  Once floored, a [pd] of at most 1 gives a maturity adjustment
    [b] no larger than its value at 0.0003, which lies between 0.316 and
    0.317; so the divisor [1 - 1.5 * b] exceeds 1/2, whatever the maturity,
    and every division of [calculate_rwa] is by a positive number. *)
Theorem C10_denominator_bounded :
  forall (exposure lgd maturity : fnum) (pd : R),
    pd <= 1 ->
    maturity_b (Rmax pd 0.0003) <= maturity_b 0.0003 /\
    0.316 < maturity_b 0.0003 < 0.317 /\
    1 / 2 < 1 - 1.5 * maturity_b (Rmax pd 0.0003) /\
    exists d1 d2 d3 : R,
      divisors (snd (calculate_rwa_traced exposure (Fin pd) lgd maturity))
      = [Fin d1; Fin d2; Fin d3;
         Fin (1 - 1.5 * maturity_b (Rmax pd 0.0003))] /\
      0 < d1 /\ 0 < d2 /\ 0 < d3.
Proof.
  intros exposure lgd maturity pd Hpd.
  set (p := Rmax pd 0.0003).
  assert (Hp : 0.0003 <= p <= 1).
  { unfold p. split; [apply Rmax_r | apply Rmax_lub; lra]. }
  pose proof (maturity_b_le_floor p Hp) as [_ Hb].
  pose proof maturity_b_floor_value as Hb0.
  split; [exact Hb |]. split; [exact Hb0 |]. split; [lra |].
  exists (1 - exp (-50)), (1 - exp (-50)),
         (sqrt (1 - asset_correlation p)).
  split; [now apply calculate_rwa_divisors |].
  pose proof exp_m50_lt_1 as He.
  pose proof (asset_correlation_bounds p ltac:(lra)) as Hr.
  repeat split; try lra.
  apply sqrt_lt_R0. lra.
Qed.

Lemma C10_denominator_bounded_witness :
  0.02 <= 1 /\
  maturity_b (Rmax 0.02 0.0003) <= maturity_b 0.0003 /\
  0.316 < maturity_b 0.0003 < 0.317 /\
  1 / 2 < 1 - 1.5 * maturity_b (Rmax 0.02 0.0003) /\
  exists d1 d2 d3 : R,
    divisors
      (snd (calculate_rwa_traced (Fin 100) (Fin 0.02) (Fin 0.45) (Fin 10)))
    = [Fin d1; Fin d2; Fin d3;
       Fin (1 - 1.5 * maturity_b (Rmax 0.02 0.0003))] /\
    0 < d1 /\ 0 < d2 /\ 0 < d3.
Proof.
  assert (H : 0.02 <= 1) by lra.
  split; [exact H |].
  exact (C10_denominator_bounded (Fin 100) (Fin 0.45) (Fin 10) 0.02 H).
Defined.

(** ** The capital charge is not monotone in the probability of default *)

Lemma Phi_inv_half : Phi_inv 0.5 = 0.
Proof.
  replace 0.5 with (Phi 0) by (rewrite Phi_0; lra). apply Phi_inv_Phi.
Qed.

Lemma Phi_mono a b : a <= b -> Phi a <= Phi b.
Proof.
  intros [H | ->]; [left; now apply Phi_increasing | right; reflexivity].
Qed.

(** The 99.9% quantile exists and is at least 1.25. *)
Lemma quantile_999 : Phi (Phi_inv 0.999) = 0.999 /\ 1.25 <= Phi_inv 0.999.
Proof.
  assert (Hq : Phi (Phi_inv 0.999) = 0.999).
  { apply Phi_Phi_inv.
    destruct (Phi_IVT 0 4 0.999) as (z & _ & Hz); [lra | | now exists z].
    rewrite Phi_0. pose proof Phi_4. lra. }
  split; [exact Hq |].
  set (q := Phi_inv 0.999) in *.
  assert (Hpos : 0 < q).
  { destruct (Rlt_dec 0 q) as [H | H]; [exact H |].
    assert (Hm : Phi q <= Phi 0) by (apply Phi_mono; lra).
    rewrite Phi_0 in Hm. lra. }
  pose proof (Phi_lipschitz 0 q (Rlt_le _ _ Hpos)) as HL.
  rewrite Hq, Phi_0 in HL.
  pose proof sqrt_2PI_bounds as Hs.
  assert (HL' : 0.499 * sqrt (2 * PI) <= q).
  { apply Rmult_le_compat_r with (r := sqrt (2 * PI)) in HL; [| lra].
    unfold Rdiv in HL. rewrite Rmult_assoc, Rinv_l in HL by lra. lra. }
  nra.
Qed.

Lemma sqrt_between (u lo hi : R) :
  0 <= lo -> lo * lo <= u <= hi * hi -> 0 <= hi -> lo <= sqrt u <= hi.
Proof.
  intros Hlo [H1 H2] Hhi. split.
  - rewrite <- (sqrt_square lo) by exact Hlo. apply sqrt_le_1_alt. exact H1.
  - rewrite <- (sqrt_square hi) by exact Hhi. apply sqrt_le_1_alt. exact H2.
Qed.

(** [Phi] rises by at least the density at the right end times the
    length, on the positive half line. *)
Lemma Phi_rise_lower a b :
  0 <= a <= b -> gauss b * (b - a) / sqrt (2 * PI) <= Phi b - Phi a.
Proof.
  intros [Ha Hab]. rewrite Phi_diff.
  pose proof sqrt_2PI_pos as Hs.
  apply Rmult_le_compat_r; [left; now apply Rinv_0_lt_compat |].
  destruct (gauss_int_bounds a b (gauss b) 1 Hab) as [H _]; [| exact H].
  intros t Ht. split; [| apply gauss_le_1].
  apply gauss_decr. lra.
Qed.

Lemma Phi_rise_upper a b :
  0 <= a <= b -> Phi b - Phi a <= gauss a * (b - a) / sqrt (2 * PI).
Proof.
  intros [Ha Hab]. rewrite Phi_diff.
  pose proof sqrt_2PI_pos as Hs.
  apply Rmult_le_compat_r; [left; now apply Rinv_0_lt_compat |].
  destruct (gauss_int_bounds a b 0 (gauss a) Hab) as [_ H]; [| exact H].
  intros t Ht. split; [left; apply gauss_pos |].
  apply gauss_decr. lra.
Qed.

(** At maturity 1 the maturity factor cancels. *)
Lemma capital_K_maturity_1 (p lgd : R) :
  1 - 1.5 * maturity_b p <> 0 ->
  capital_K p lgd 1 = lgd * (conditional_pd p - p).
Proof.
  intros H. unfold capital_K.
  replace (1 + (1 - 2.5) * maturity_b p) with (1 - 1.5 * maturity_b p)
    by lra.
  unfold Rdiv. rewrite Rmult_assoc, Rinv_r by exact H. ring.
Qed.

Lemma conditional_pd_half_lower : 0.664 <= conditional_pd 0.5.
Proof.
  unfold conditional_pd. rewrite Phi_inv_half.
  destruct quantile_999 as [_ Hq]. set (q := Phi_inv 0.999) in *.
  pose proof (asset_correlation_bounds 0.5 ltac:(lra)) as Hr.
  set (r := asset_correlation 0.5) in *.
  pose proof (sqrt_between r 0.3464 0.49 ltac:(lra) ltac:(lra) ltac:(lra))
    as Hs1.
  pose proof (sqrt_between (1 - r) 0.87 0.9381 ltac:(lra) ltac:(lra)
                ltac:(lra)) as Hs2.
  assert (Harg : 0.46 <= (0 + sqrt r * q) / sqrt (1 - r)).
  { apply Rmult_le_reg_r with (sqrt (1 - r)); [lra |].
    unfold Rdiv. rewrite Rmult_assoc, Rinv_l by lra. nra. }
  eapply Rle_trans; [| apply Phi_mono, Harg].
  pose proof (Phi_rise_lower 0 0.46 ltac:(lra)) as H.
  rewrite Phi_0 in H.
  assert (Hg : 0.8942 <= gauss 0.46).
  { unfold gauss. eapply Rle_trans; [| apply exp_ineq1_le]. lra. }
  pose proof sqrt_2PI_bounds as Hs.
  assert (Hd : 0.164 <= gauss 0.46 * (0.46 - 0) / sqrt (2 * PI)).
  { apply Rmult_le_reg_r with (sqrt (2 * PI)); [lra |].
    unfold Rdiv. rewrite Rmult_assoc, Rinv_l by lra. nra. }
  lra.
Qed.

Lemma asset_correlation_999 : 0.12 <= asset_correlation 0.999 <= 0.1224.
Proof.
  pose proof (asset_correlation_bounds 0.999 ltac:(lra)) as [Hlo _].
  split; [exact Hlo |].
  unfold asset_correlation. cbv zeta.
  pose proof exp_m50_lt_1 as [He0 He1].
  assert (Hx : exp (-50 * 0.999) <= 0.02).
  { assert (E : exp (-50 * 0.999) * exp 49.95 = 1).
    { rewrite <- exp_plus. replace (-50 * 0.999 + 49.95) with 0 by lra.
      apply exp_0. }
    pose proof (exp_ineq1_le 49.95) as H1.
    pose proof (exp_pos (-50 * 0.999)) as H2. nra. }
  set (w := (1 - exp (-50 * 0.999)) / (1 - exp (-50))).
  assert (Hw : 0.98 <= w).
  { unfold w. apply Rmult_le_reg_r with (1 - exp (-50)); [lra |].
    unfold Rdiv. rewrite Rmult_assoc, Rinv_l by lra. nra. }
  lra.
Qed.

Lemma conditional_pd_999_upper : conditional_pd 0.999 - 0.999 <= 0.125.
Proof.
  unfold conditional_pd.
  destruct quantile_999 as [HPq Hq]. set (q := Phi_inv 0.999) in *.
  pose proof asset_correlation_999 as Hr.
  set (r := asset_correlation 0.999) in *.
  pose proof (sqrt_between r 0.34 0.34986 ltac:(lra) ltac:(lra) ltac:(lra))
    as Hs1.
  pose proof (sqrt_between (1 - r) 0.9368 1 ltac:(lra) ltac:(lra)
                ltac:(lra)) as Hs2.
  set (a := (q + sqrt r * q) / sqrt (1 - r)).
  assert (Ha : q <= a <= 1.441 * q).
  { unfold a. split.
    - apply Rmult_le_reg_r with (sqrt (1 - r)); [lra |].
      unfold Rdiv. rewrite Rmult_assoc, Rinv_l by lra. nra.
    - apply Rmult_le_reg_r with (sqrt (1 - r)); [lra |].
      unfold Rdiv. rewrite Rmult_assoc, Rinv_l by lra. nra. }
  pose proof (Phi_rise_upper q a ltac:(lra)) as H.
  rewrite HPq in H.
  assert (Hg : gauss q * (1 + q * q / 2) <= 1).
  { unfold gauss.
    assert (E : exp (- (q * q) / 2) * exp (q * q / 2) = 1).
    { rewrite <- exp_plus. replace (- (q * q) / 2 + q * q / 2) with 0 by lra.
      apply exp_0. }
    pose proof (exp_ineq1_le (q * q / 2)) as H1.
    pose proof (exp_pos (- (q * q) / 2)) as H2. nra. }
  pose proof (gauss_pos q) as Hgp.
  assert (Hgq : gauss q * q <= 0.7072).
  { assert (Hquad : q <= 0.7072 * (1 + q * q / 2)).
    { pose proof (Rle_0_sqr (q - 1.4142)) as Hsq. unfold Rsqr in Hsq.
      clear - Hsq Hq. nra. }
    assert (Hm : gauss q * q <= gauss q * (0.7072 * (1 + q * q / 2))).
    { apply Rmult_le_compat_l; lra. }
    clear - Hm Hg Hgp. nra. }
  pose proof sqrt_2PI_bounds as Hs.
  assert (Hd : gauss q * (a - q) / sqrt (2 * PI) <= 0.125).
  { apply Rmult_le_reg_r with (sqrt (2 * PI)); [lra |].
    unfold Rdiv. rewrite Rmult_assoc, Rinv_l by lra.
    assert (Hm : gauss q * (a - q) <= gauss q * (0.441 * q)).
    { apply Rmult_le_compat_l; lra. }
    lra. }
  lra.
Qed.

Lemma maturity_divisor_nonzero (p : R) :
  0.0003 <= p <= 1 -> 1 - 1.5 * maturity_b p <> 0.
Proof.
  intros Hp. pose proof (maturity_b_le_floor p Hp) as Hb.
  pose proof maturity_b_floor_value as Hb0. lra.
Qed.

Lemma rwa_real_maturity_1 (e p lgd : R) :
  0.0003 <= p <= 1 ->
  rwa_real e p lgd 1 = e * (lgd * (conditional_pd p - p)) * 12.5.
Proof.
  intros Hp. unfold rwa_real.
  now rewrite capital_K_maturity_1 by now apply maturity_divisor_nonzero.
Qed.

(** Exposure 100, LGD 0.45, maturity 1: the charge at a PD of 0.5 is above
    92, the charge at a PD of 0.999 below 71. *)
Lemma rwa_half_and_999 :
  calculate_rwa (Fin 100) (Fin 0.5) (Fin 0.45) (Fin 1)
  = Fin (rwa_real 100 0.5 0.45 1) /\
  calculate_rwa (Fin 100) (Fin 0.999) (Fin 0.45) (Fin 1)
  = Fin (rwa_real 100 0.999 0.45 1) /\
  92 < rwa_real 100 0.5 0.45 1 /\
  rwa_real 100 0.999 0.45 1 < 71.
Proof.
  split; [| split; [| split]].
  - rewrite calculate_rwa_fin by lra. now rewrite Rmax_left by lra.
  - rewrite calculate_rwa_fin by lra. now rewrite Rmax_left by lra.
  - rewrite rwa_real_maturity_1 by lra.
    pose proof conditional_pd_half_lower. lra.
  - rewrite rwa_real_maturity_1 by lra.
    pose proof conditional_pd_999_upper. lra.
Qed.




(* ================================================================== *)
(** * Further properties of the code *)

(** ** The capital engine at and beyond the edge of its domain *)

Lemma fmul_nan_r (a : fnum) : fmul a NaN = NaN.
Proof. destruct a; reflexivity. Qed.

Lemma norm_ppf_above_1 (p : R) : 1 < p -> norm_ppf (Fin p) = NaN.
Proof.
  intros Hp. simpl.
  destruct (total_order_T 0 p) as [[H | H] | H]; try lra.
  destruct (total_order_T p 1) as [[H' | H'] | H']; try lra.
  reflexivity.
Qed.

Lemma norm_ppf_at_1 : norm_ppf (Fin 1) = PInf.
Proof.
  simpl.
  destruct (total_order_T 0 1) as [[H | H] | H]; try lra.
  destruct (total_order_T 1 1) as [[H' | H'] | H']; try lra.
  reflexivity.
Qed.

Lemma calculate_rwa_above_1 (exposure lgd maturity : fnum) (pd : R) :
  1 < pd -> calculate_rwa exposure (Fin pd) lgd maturity = NaN.
Proof.
  intros Hpd.
  unfold calculate_rwa. rewrite floor_pd_fin.
  rewrite (Rmax_left pd 0.0003) by lra.
  cbv zeta. rewrite (norm_ppf_above_1 pd Hpd).
  cbn [fadd fdiv norm_cdf]. rewrite fmul_nan_r.
  cbn [fsub fadd fmul fdiv]. rewrite fmul_nan_r. reflexivity.
Qed.

(** X3.  A [pd] above 1 makes [norm.ppf] return NaN, and the NaN reaches
    the result whatever the other arguments are. *)
Theorem X3_rwa_nan_above_1 :
  forall (exposure lgd maturity : fnum) (pd : R),
    1 < pd ->
    norm_ppf (Fin pd) = NaN /\
    calculate_rwa exposure (Fin pd) lgd maturity = NaN.
Proof.
  intros exposure lgd maturity pd Hpd. split.
  - now apply norm_ppf_above_1.
  - now apply calculate_rwa_above_1.
Qed.

Lemma X3_rwa_nan_above_1_witness :
  1 < 1.5 /\
  norm_ppf (Fin 1.5) = NaN /\
  calculate_rwa (Fin 100) (Fin 1.5) (Fin 0.45) (Fin 5) = NaN.
Proof.
  assert (H : 1 < 1.5) by lra.
  split; [exact H |].
  exact (X3_rwa_nan_above_1 (Fin 100) (Fin 0.45) (Fin 5) 1.5 H).
Defined.

Lemma fdiv_pinf_pos (y : R) : 0 < y -> fdiv PInf (Fin y) = PInf.
Proof.
  intros Hy. cbn. unfold inf_over.
  destruct (Rle_dec 0 y); [reflexivity | lra].
Qed.

(** X4.  At a [pd] of exactly 1 the quantile is +inf, the conditional PD
    is 1 and the unexpected loss [lgd * 1 - 1 * lgd] vanishes: the result
    is 0 for all finite exposures, LGDs and maturities. *)
Theorem X4_rwa_zero_at_1 :
  forall (e l m : R),
    calculate_rwa (Fin e) (Fin 1) (Fin l) (Fin m) = Fin 0.
Proof.
  intros e l m. unfold calculate_rwa. rewrite floor_pd_fin.
  rewrite (Rmax_left 1 0.0003) by lra.
  pose proof (asset_correlation_bounds 1 ltac:(lra)) as Hr.
  pose proof (maturity_b_le_floor 1 ltac:(lra)) as Hb.
  pose proof maturity_b_floor_value as Hb0.
  unfold asset_correlation in Hr. cbv zeta in Hr.
  unfold maturity_b in Hb, Hb0.
  cbv zeta. rewrite !corr_weight_fin.
  cbn [fmul fsub fadd fneg].
  rewrite np_log_fin by lra.
  rewrite norm_ppf_at_1.
  rewrite (norm_ppf_fin 0.999) by lra.
  unfold fsquare. cbn [fmul fsub fadd fneg].
  rewrite !np_sqrt_fin by lra.
  cbn [fmul fsub fadd fneg].
  rewrite fdiv_pinf_pos by (apply sqrt_lt_R0; lra).
  cbn [norm_cdf fmul fsub fadd fneg].
  rewrite fdiv_fin by lra.
  cbn [fmul]. f_equal. unfold Rdiv. ring.
Qed.

(** ** Part B on frames *)

Lemma calculate_rwa_col_nth e p l m i ve vp vl vm :
  nth_error e i = Some ve ->
  nth_error p i = Some vp ->
  nth_error l i = Some vl ->
  nth_error m i = Some vm ->
  nth_error (calculate_rwa_col e p l m) i = Some (calculate_rwa ve vp vl vm).
Proof.
  revert p l m i.
  induction e as [| e0 e IH]; intros [| p0 p] [| l0 l] [| m0 m] [| i];
    simpl; intros He Hp Hl Hm; try discriminate.
  - congruence.
  - now apply IH.
Qed.

Lemma base_pd_col_nth draws ci i d c :
  nth_error draws i = Some d ->
  nth_error ci i = Some c ->
  nth_error (base_pd_col draws ci) i = Some (fadd d (fdiv c (Fin 100000))).
Proof.
  intros Hd Hc. unfold base_pd_col, s_add, s_div_c.
  apply nth_error_zip_with; [exact Hd |].
  now apply (nth_error_map_some (fun v => fdiv v (Fin 100000))).
Qed.

Lemma part_b_spec draws df df1 :
  part_b draws df = Some df1 ->
  exists ci e l m,
    num df "Carbon_Intensity" = Some ci /\
    num df "Exposure_INR_Cr" = Some e /\
    num df "LGD" = Some l /\
    num df "Maturity_Years" = Some m /\
    num df1 "Base_PD" = Some (base_pd_col draws ci) /\
    num df1 "Current_Capital"
    = Some (s_mul_c (calculate_rwa_col e (base_pd_col draws ci) l m)
              (Fin CET1_ratio)) /\
    (forall k, k <> "Base_PD"%string -> k <> "Current_RWA"%string ->
               k <> "Current_Capital"%string ->
               df_get df1 k = df_get df k).
Proof.
  unfold part_b. intros H.
  repeat (cbv beta iota zeta in H;
          repeat first [ rewrite num_df_set_same in H
                       | rewrite num_df_set_other in H by discriminate ];
          try next_column H).
  injection H as <-.
  do 4 eexists.
  repeat (split; [eassumption |]).
  repeat split.
  - rewrite !num_df_set_other by discriminate. apply num_df_set_same.
  - apply num_df_set_same.
  - intros k H1 H2 H3.
    rewrite !df_get_df_set_other by congruence. reflexivity.
Qed.

Lemma part_c_stress_keeps df df2 k :
  part_c_stress df = Some df2 ->
  k <> "Stressed_PD"%string -> k <> "Stressed_RWA"%string ->
  k <> "Stressed_Capital"%string -> k <> "Net_Income"%string ->
  df_get df2 k = df_get df k.
Proof.
  unfold part_c_stress. intros H H1 H2 H3 H4.
  repeat (cbv beta iota zeta in H; try next_column H).
  injection H as <-.
  rewrite !df_get_df_set_other by congruence. reflexivity.
Qed.

(** ** The script raises no exception on a well-formed frame *)

Lemma num_of_df_get df1 df k :
  df_get df1 k = df_get df k -> num df1 k = num df k.
Proof. intros H. unfold num. now rewrite H. Qed.

Lemma part_b_total draws df ci e l m :
  num df "Carbon_Intensity" = Some ci ->
  num df "Exposure_INR_Cr" = Some e ->
  num df "LGD" = Some l ->
  num df "Maturity_Years" = Some m ->
  exists df1, part_b draws df = Some df1.
Proof.
  intros Hci He Hl Hm. unfold part_b. rewrite Hci. cbv zeta.
  repeat first [ rewrite num_df_set_same
               | rewrite num_df_set_other by discriminate ].
  rewrite He, Hl, Hm.
  repeat first [ rewrite num_df_set_same
               | rewrite num_df_set_other by discriminate ].
  eexists. reflexivity.
Qed.

Lemma part_c_stress_total df ci base tr e l m ir :
  num df "Carbon_Intensity" = Some ci ->
  num df "Base_PD" = Some base ->
  num df "Transition_Readiness" = Some tr ->
  num df "Exposure_INR_Cr" = Some e ->
  num df "LGD" = Some l ->
  num df "Maturity_Years" = Some m ->
  num df "Interest_Rate" = Some ir ->
  exists df2, part_c_stress df = Some df2.
Proof.
  intros Hci Hb Ht He Hl Hm Hir. unfold part_c_stress.
  rewrite Hci, Hb, Ht. cbv zeta.
  repeat first [ rewrite num_df_set_same
               | rewrite num_df_set_other by discriminate ].
  rewrite He, Hl, Hm.
  repeat first [ rewrite num_df_set_same
               | rewrite num_df_set_other by discriminate ].
  rewrite Hir. eexists. reflexivity.
Qed.

Lemma report_total res w ni sc :
  (success res = true -> List.length (x res) = df_len (frame w)) ->
  num (frame w) "Net_Income" = Some ni ->
  num (frame w) "Stressed_Capital" = Some sc ->
  exists w', report res w = Some w'.
Proof.
  intros Hlen Hni Hsc. unfold report.
  destruct (success res); [| eexists; reflexivity].
  rewrite (Hlen eq_refl), Nat.eqb_refl. cbn [negb].
  rewrite num_df_set_same.
  repeat first [ rewrite num_df_set_same
               | rewrite num_df_set_other by discriminate ].
  cbv zeta.
  repeat first [ rewrite num_df_set_same
               | rewrite num_df_set_other by discriminate ].
  rewrite Hni, Hsc. eexists. reflexivity.
Qed.

Lemma main_script_total linprog draws df e m ir l ci tr :
  linprog_dimension linprog ->
  num df "Exposure_INR_Cr" = Some e ->
  num df "Maturity_Years" = Some m ->
  num df "Interest_Rate" = Some ir ->
  num df "LGD" = Some l ->
  num df "Carbon_Intensity" = Some ci ->
  num df "Transition_Readiness" = Some tr ->
  exists w, main_script linprog draws df = Some w.
Proof.
  intros Hdim He Hm Hir Hl Hci Htr.
  destruct (part_b_total draws df ci e l m Hci He Hl Hm) as [df1 Hb].
  destruct (part_b_spec _ _ _ Hb)
    as (ci' & e' & l' & m' & _ & _ & _ & _ & Hbase & Hcc & Hkeep).
  assert (K : forall k v, num df k = Some v ->
                          k <> "Base_PD"%string -> k <> "Current_RWA"%string ->
                          k <> "Current_Capital"%string ->
                          num df1 k = Some v).
  { intros k v Hk H1 H2 H3.
    rewrite (num_of_df_get _ _ _ (Hkeep k H1 H2 H3)). exact Hk. }
  destruct (part_c_stress_total df1 ci (base_pd_col draws ci') tr e l m ir)
    as [df2 Hc];
    try (apply K; [assumption | discriminate ..]).
  { exact Hbase. }
  destruct (part_c_stress_spec _ _ Hc)
    as (ci2 & base2 & tr2 & e2 & l2 & m2 & ir2 & _ & _ & _ & _ & _ & _ & _
        & _ & Hsc & Hni & Hex & Hcc2).
  rewrite Hcc in Hcc2.
  assert (Hlp : exists lp, lp_problem (fillna df2) = Some lp).
  { unfold lp_problem. rewrite !num_fillna, Hni, Hsc, Hex, Hcc2. cbn.
    eexists. reflexivity. }
  destruct Hlp as [lp Hlp].
  unfold main_script. rewrite Hb. cbn [frame print].
  rewrite Hc. cbn [frame print set_frame console files app].
  rewrite Hlp.
  apply (report_total _ _
           (map fillna_cell (net_income_col e2 ir2
                               (stressed_pd_col base2 ci2 tr2) l2))
           (map fillna_cell
              (s_mul_c (calculate_rwa_col e2 (stressed_pd_col base2 ci2 tr2)
                          l2 m2) (Fin CET1_ratio)))).
  - intros Hs. cbn [frame print set_frame]. rewrite (Hdim lp Hs).
    unfold lp_problem in Hlp.
    repeat next_column Hlp. injection Hlp as <-.
    cbn [lp_bounds]. apply repeat_length.
  - cbn [frame print set_frame]. rewrite num_fillna, Hni. reflexivity.
  - cbn [frame print set_frame]. rewrite num_fillna, Hsc. reflexivity.
Qed.

Lemma main_script_needs_inputs linprog draws df w :
  main_script linprog draws df = Some w ->
  Forall (fun k => num df k <> None) numeric_inputs.
Proof.
  intros H.
  destruct (main_script_inv _ _ _ _ H) as (df1 & df2 & lp & Hb & Hc & _ & _).
  destruct (part_b_spec _ _ _ Hb)
    as (ci & e & l & m & Hci & He & Hl & Hm & _ & _ & Hkeep).
  destruct (part_c_stress_spec _ _ Hc)
    as (ci2 & base2 & tr2 & e2 & l2 & m2 & ir2 & _ & _ & Htr & _ & _ & Hm2
        & Hir & _).
  assert (K : forall k, k <> "Base_PD"%string -> k <> "Current_RWA"%string ->
                        k <> "Current_Capital"%string ->
                        num df1 k = num df k).
  { intros k H1 H2 H3. apply num_of_df_get. now apply Hkeep. }
  rewrite (K "Transition_Readiness"%string) in Htr by discriminate.
  rewrite (K "Interest_Rate"%string) in Hir by discriminate.
  unfold numeric_inputs. repeat constructor; congruence.
Qed.

(** X5.  With a solver that answers in the dimension of the program, the
    script runs to its end, without a KeyError or a length error, exactly
    when the joined frame holds the six numeric input columns. *)
Theorem X5_script_completes_iff_inputs :
  forall (linprog : LinProg -> OptimizeResult) (draws : Series)
         (df : DataFrame),
    linprog_dimension linprog ->
    ((exists w, main_script linprog draws df = Some w) <->
     Forall (fun k => num df k <> None) numeric_inputs).
Proof.
  intros linprog draws df Hdim. split.
  - intros [w Hw]. exact (main_script_needs_inputs _ _ _ _ Hw).
  - intros HF. unfold numeric_inputs in HF.
    repeat match goal with
           | H : Forall _ (_ :: _) |- _ => inversion H; clear H; subst
           end.
    repeat match goal with
           | H : num df ?k <> None |- _ =>
               destruct (num df k) eqn:?; [clear H | contradiction]
           end.
    eapply main_script_total; eassumption.
Qed.

Lemma infeasible_solver_dimension : linprog_dimension infeasible_solver.
Proof. intros lp H. discriminate H. Qed.

Lemma X5_script_completes_iff_inputs_witness :
  linprog_dimension infeasible_solver /\
  ((exists w, main_script infeasible_solver [Fin 0.03] demo_frame = Some w) <->
   Forall (fun k => num demo_frame k <> None) numeric_inputs).
Proof.
  split; [exact infeasible_solver_dimension |].
  exact (X5_script_completes_iff_inputs infeasible_solver [Fin 0.03]
           demo_frame infeasible_solver_dimension).
Defined.

(** ** Stressed and baseline capital of a row *)

Lemma s_mul_c_nth a c i v :
  nth_error a i = Some v -> nth_error (s_mul_c a c) i = Some (fmul v c).
Proof.
  intros H. unfold s_mul_c. now apply (nth_error_map_some (fun u => fmul u c)).
Qed.

(** X7.  A row whose base PD (beta draw plus carbon intensity / 100000)
    exceeds 1 gets the baseline capital NaN, which the anomaly pass turns
    into 0: that row adds nothing to the capital ceiling of the program. *)
Theorem X7_base_pd_above_1_zero_capital :
  forall (draws : Series) (df df1 df2 : DataFrame) (i : nat)
         (exposure lgd mat ci : Series) (ve vl vm : fnum) (d c : R),
    part_b draws df = Some df1 ->
    part_c_stress df1 = Some df2 ->
    num df "Exposure_INR_Cr" = Some exposure ->
    num df "LGD" = Some lgd ->
    num df "Maturity_Years" = Some mat ->
    num df "Carbon_Intensity" = Some ci ->
    nth_error draws i = Some (Fin d) ->
    nth_error ci i = Some (Fin c) ->
    nth_error exposure i = Some ve ->
    nth_error lgd i = Some vl ->
    nth_error mat i = Some vm ->
    1 < d + c / 100000 ->
    exists cc cc' : Series,
      num df1 "Current_Capital" = Some cc /\
      nth_error cc i = Some NaN /\
      num (fillna df2) "Current_Capital" = Some cc' /\
      nth_error cc' i = Some (Fin 0).
Proof.
  intros draws df df1 df2 i exposure lgd mat ci ve vl vm d c
         Hb Hs He Hl Hm Hci Nd Nc Ne Nl Nm Hgt.
  destruct (part_b_spec _ _ _ Hb)
    as (ci' & e' & l' & m' & Eci & Ee & El & Em & Hbase & Hcc & _).
  rewrite Hci in Eci. rewrite He in Ee. rewrite Hl in El. rewrite Hm in Em.
  injection Eci as <-. injection Ee as <-. injection El as <-.
  injection Em as <-.
  destruct (part_c_stress_spec _ _ Hs)
    as (_ & _ & _ & _ & _ & _ & _ & _ & _ & _ & _ & _ & _ & _ & _ & _ & _
        & _ & Hcc2).
  pose proof (base_pd_col_nth _ _ _ _ _ Nd Nc) as Nbase.
  rewrite fdiv_fin in Nbase by lra. cbn [fadd] in Nbase.
  pose proof (calculate_rwa_col_nth _ _ _ _ _ _ _ _ _ Ne Nbase Nl Nm) as Nrwa.
  rewrite calculate_rwa_above_1 in Nrwa by exact Hgt.
  pose proof (s_mul_c_nth _ (Fin CET1_ratio) _ _ Nrwa) as Ncap.
  cbn [fmul] in Ncap.
  eexists _, _. split; [exact Hcc |]. split; [exact Ncap |].
  split; [rewrite num_fillna, Hcc2, Hcc; reflexivity |].
  apply (nth_error_map_some fillna_cell) in Ncap. exact Ncap.
Qed.

Lemma demo_dirty_stages :
  exists df1 df2,
    part_b [Fin 0.03] demo_dirty_frame = Some df1 /\
    part_c_stress df1 = Some df2.
Proof.
  eexists. eexists. split; reflexivity.
Qed.

Lemma X7_base_pd_above_1_zero_capital_witness :
  exists (df1 df2 : DataFrame) (cc cc' : Series),
    part_b [Fin 0.03] demo_dirty_frame = Some df1 /\
    part_c_stress df1 = Some df2 /\
    1 < 0.03 + 150000 / 100000 /\
    num df1 "Current_Capital" = Some cc /\
    nth_error cc 0 = Some NaN /\
    num (fillna df2) "Current_Capital" = Some cc' /\
    nth_error cc' 0 = Some (Fin 0).
Proof.
  destruct demo_dirty_stages as (df1 & df2 & Hb & Hs).
  assert (Hgt : 1 < 0.03 + 150000 / 100000) by lra.
  destruct (X7_base_pd_above_1_zero_capital [Fin 0.03] demo_dirty_frame
              df1 df2 0 [Fin 100] [Fin 0.45] [Fin 5] [Fin 150000]
              (Fin 100) (Fin 0.45) (Fin 5) 0.03 150000
              Hb Hs eq_refl eq_refl eq_refl eq_refl
              eq_refl eq_refl eq_refl eq_refl eq_refl Hgt)
    as (cc & cc' & H).
  exists df1, df2, cc, cc'.
  split; [exact Hb |]. split; [exact Hs |]. split; [exact Hgt | exact H].
Defined.

(** ** The anomaly pass *)

Lemma fillna_col_len (c : column) : col_len (fillna_col c) = col_len c.
Proof. destruct c; simpl; [apply length_map | reflexivity]. Qed.

(** ** The linear program says what the three constraints say *)

Lemma unit_bounds_of_finite (xs : list R) :
  Forall (fun v => 0 <= v <= 1) xs ->
  Forall2 (fun bd v => fle (fst bd) v /\ fle v (snd bd))
    (repeat (Fin 0, Fin 1) (List.length xs)) (map Fin xs).
Proof.
  induction 1 as [| v xs Hv _ IH]; simpl; constructor.
  - simpl. lra.
  - exact IH.
Qed.

Lemma map_Fin_inj (a b : list R) : map Fin a = map Fin b -> a = b.
Proof.
  revert b. induction a as [| u a IH]; intros [| v b] H; simpl in H;
    try discriminate; [reflexivity |].
  injection H as -> H. f_equal. now apply IH.
Qed.

Lemma lp_feasible_iff (df : DataFrame) (lp : LinProg)
      (ni sc e cc xs : list R) :
  num df "Net_Income" = Some (map Fin ni) ->
  num df "Stressed_Capital" = Some (map Fin sc) ->
  num df "Exposure_INR_Cr" = Some (map Fin e) ->
  num df "Current_Capital" = Some (map Fin cc) ->
  lp_problem df = Some lp ->
  df_len df = List.length ni ->
  lp_feasible lp (map Fin xs) <->
  (List.length xs = List.length ni /\
   Rdot xs sc <= 1.10 * Rsum cc /\
   Rdot xs e >= 0.85 * Rsum e /\
   Forall (fun v => 0 <= v <= 1) xs).
Proof.
  intros Hni Hsc He Hcc Hlp Hlen.
  unfold lp_problem in Hlp. rewrite Hni, Hsc, He, Hcc in Hlp.
  injection Hlp as <-. unfold lp_feasible.
  cbn [lp_c lp_A_ub lp_b_ub lp_bounds].
  rewrite c_mul_s_Fin, !length_map, s_sum_Fin. cbn [fmul].
  split.
  - intros (Hl & HA & Hbd).
    split; [exact Hl |].
    inversion HA as [| r1 b1 rs bs H1 Hrest]; subst.
    inversion Hrest as [| r2 b2 rs' bs' H2 _]; subst.
    rewrite f_dot_Fin in H1. rewrite s_sum_Fin in H2.
    rewrite c_mul_s_Fin, f_dot_Fin in H2. cbn in H1, H2.
    rewrite Rdot_opp_l in H2.
    destruct (unit_bounds_finite _ _ Hbd) as (ys & Hy & Hys).
    apply map_Fin_inj in Hy. subst ys.
    rewrite (Rdot_comm xs sc), (Rdot_comm xs e).
    repeat split; try lra; exact Hys.
  - intros (Hl & Hcap & Hvol & Hxs).
    split; [exact Hl |]. split.
    + constructor; [| constructor; [| constructor]].
      * rewrite f_dot_Fin. cbn. rewrite Rdot_comm. lra.
      * rewrite s_sum_Fin, c_mul_s_Fin, f_dot_Fin. cbn.
        rewrite Rdot_opp_l, Rdot_comm. lra.
    + rewrite Hlen, <- Hl. now apply unit_bounds_of_finite.
Qed.

(** X9.  For finite coefficient columns, a real vector is a feasible point
    of the program the script hands to [linprog] exactly when it has one
    entry per row, keeps the stressed capital within 110% of the current
    capital, keeps at least 85% of the exposure, and lies in [0,1]. *)
Theorem X9_lp_encodes_constraints :
  forall (df : DataFrame) (lp : LinProg) (ni sc e cc xs : list R),
    num df "Net_Income" = Some (map Fin ni) ->
    num df "Stressed_Capital" = Some (map Fin sc) ->
    num df "Exposure_INR_Cr" = Some (map Fin e) ->
    num df "Current_Capital" = Some (map Fin cc) ->
    lp_problem df = Some lp ->
    df_len df = List.length ni ->
    lp_feasible lp (map Fin xs) <->
    (List.length xs = List.length ni /\
     Rdot xs sc <= 1.10 * Rsum cc /\
     Rdot xs e >= 0.85 * Rsum e /\
     Forall (fun v => 0 <= v <= 1) xs).
Proof.
  intros df lp ni sc e cc xs. apply lp_feasible_iff.
Qed.

Lemma X9_lp_encodes_constraints_witness :
  lp_feasible demo_lp (map Fin [0.9]) <->
  (List.length [0.9] = List.length [5] /\
   Rdot [0.9] [1] <= 1.10 * Rsum [1] /\
   Rdot [0.9] [100] >= 0.85 * Rsum [100] /\
   Forall (fun v => 0 <= v <= 1) [0.9]).
Proof.
  exact (X9_lp_encodes_constraints demo_stressed_frame demo_lp
           [5] [1] [100] [1] [0.9]
           eq_refl eq_refl eq_refl eq_refl demo_lp_problem eq_refl).
Defined.

Lemma Rdot_zeros (n : nat) (a : list R) : Rdot (repeat 0 n) a = 0.
Proof.
  unfold Rdot. revert a. induction n as [| n IH]; intros [| u a]; simpl;
    try reflexivity.
  fold (Rsum (zip_with Rmult (repeat 0 n) a)). rewrite IH. lra.
Qed.

Lemma Rdot_ones (a : list R) : Rdot (repeat 1 (List.length a)) a = Rsum a.
Proof.
  unfold Rdot. induction a as [| u a IH]; simpl; [reflexivity |].
  fold (Rsum (zip_with Rmult (repeat 1 (List.length a)) a)).
  fold (Rsum a). rewrite IH. lra.
Qed.

Lemma Forall_repeat {A} (P : A -> Prop) (a : A) (n : nat) :
  P a -> Forall P (repeat a n).
Proof. intros H. induction n; simpl; constructor; auto. Qed.

(** X10.  Two corner points of the program, for finite columns of one
    length: exiting every facility is infeasible as soon as the total
    exposure is positive; keeping every facility is feasible exactly when
    the stressed capital is within 110% of the current capital and the
    total exposure is not negative. *)
Theorem X10_exit_all_and_keep_all :
  forall (df : DataFrame) (lp : LinProg) (ni sc e cc : list R),
    num df "Net_Income" = Some (map Fin ni) ->
    num df "Stressed_Capital" = Some (map Fin sc) ->
    num df "Exposure_INR_Cr" = Some (map Fin e) ->
    num df "Current_Capital" = Some (map Fin cc) ->
    lp_problem df = Some lp ->
    df_len df = List.length ni ->
    List.length sc = List.length ni ->
    List.length e = List.length ni ->
    (0 < Rsum e ->
     ~ lp_feasible lp (map Fin (repeat 0 (List.length ni)))) /\
    (lp_feasible lp (map Fin (repeat 1 (List.length ni))) <->
     Rsum sc <= 1.10 * Rsum cc /\ 0 <= Rsum e).
Proof.
  intros df lp ni sc e cc Hni Hsc He Hcc Hlp Hlen Lsc Le. split.
  - intros Hpos Hf.
    apply (lp_feasible_iff df lp ni sc e cc _ Hni Hsc He Hcc Hlp Hlen) in Hf.
    destruct Hf as (_ & _ & Hvol & _). rewrite Rdot_zeros in Hvol. lra.
  - rewrite (lp_feasible_iff df lp ni sc e cc _ Hni Hsc He Hcc Hlp Hlen).
    rewrite repeat_length.
    assert (E1 : Rdot (repeat 1 (List.length ni)) sc = Rsum sc).
    { rewrite <- Lsc. apply Rdot_ones. }
    assert (E2 : Rdot (repeat 1 (List.length ni)) e = Rsum e).
    { rewrite <- Le. apply Rdot_ones. }
    rewrite E1, E2.
    split.
    + intros (_ & Hcap & Hvol & _). lra.
    + intros (Hcap & Hvol). repeat split; try lra.
      apply Forall_repeat. lra.
Qed.

Lemma X10_exit_all_and_keep_all_witness :
  (0 < Rsum [100] ->
   ~ lp_feasible demo_lp (map Fin (repeat 0 (List.length [5])))) /\
  (lp_feasible demo_lp (map Fin (repeat 1 (List.length [5]))) <->
   Rsum [1] <= 1.10 * Rsum [1] /\ 0 <= Rsum [100]).
Proof.
  exact (X10_exit_all_and_keep_all demo_stressed_frame demo_lp
           [5] [1] [100] [1]
           eq_refl eq_refl eq_refl eq_refl demo_lp_problem eq_refl
           eq_refl eq_refl).
Defined.

(** ** The labels of the success branch *)

Lemma strategy_of_fin (v : R) :
  (v < 0.1 -> strategy_of (Fin v) = "Exit"%string) /\
  (0.1 <= v -> strategy_of (Fin v) = "Hold"%string).
Proof.
  unfold strategy_of, flt. destruct (Rlt_dec v 0.1); split; intros; try lra;
    reflexivity.
Qed.

(** X11.  On success the [Strategy] column has one label per retention:
    "Exit" for a finite retention below 0.1, "Hold" for a finite retention
    of at least 0.1 and for a NaN; no other label occurs. *)
Theorem X11_strategy_labels :
  forall (res : OptimizeResult) (w w' : World),
    success res = true ->
    report res w = Some w' ->
    exists labels : list string,
      df_get (frame w') "Strategy" = Some (StrCol labels) /\
      List.length labels = List.length (x res) /\
      Forall (fun s => s = "Exit"%string \/ s = "Hold"%string) labels /\
      (forall i v, nth_error (x res) i = Some (Fin v) ->
                   (v < 0.1 -> nth_error labels i = Some "Exit"%string) /\
                   (0.1 <= v -> nth_error labels i = Some "Hold"%string)) /\
      (forall i, nth_error (x res) i = Some NaN ->
                 nth_error labels i = Some "Hold"%string).
Proof.
  intros res w w' Hs Hr.
  destruct (report_success _ _ _ Hs Hr) as (_ & _ & Hstr & _).
  exists (map strategy_of (x res)).
  split; [exact Hstr |]. split; [apply length_map |]. split; [| split].
  - apply Forall_forall. intros s Hin.
    apply in_map_iff in Hin. destruct Hin as (r & <- & _).
    unfold strategy_of. destruct (flt r (Fin 0.1)); auto.
  - intros i v Hi.
    rewrite (nth_error_map_some strategy_of _ _ _ Hi).
    destruct (strategy_of_fin v) as [H1 H2].
    split; intros H; f_equal; auto.
  - intros i Hi.
    rewrite (nth_error_map_some strategy_of _ _ _ Hi). reflexivity.
Qed.

Lemma X11_strategy_labels_witness :
  exists (w' : World) (labels : list string),
    report (keep_all_solver demo_lp) demo_world = Some w' /\
    df_get (frame w') "Strategy" = Some (StrCol labels) /\
    List.length labels = List.length (x (keep_all_solver demo_lp)) /\
    Forall (fun s => s = "Exit"%string \/ s = "Hold"%string) labels /\
    (forall i v, nth_error (x (keep_all_solver demo_lp)) i = Some (Fin v) ->
                 (v < 0.1 -> nth_error labels i = Some "Exit"%string) /\
                 (0.1 <= v -> nth_error labels i = Some "Hold"%string)) /\
    (forall i, nth_error (x (keep_all_solver demo_lp)) i = Some NaN ->
               nth_error labels i = Some "Hold"%string).
Proof.
  destruct demo_report as [w' Hw'].
  destruct (X11_strategy_labels (keep_all_solver demo_lp) demo_world w'
              demo_lp_solved Hw') as (labels & H).
  exists w', labels. split; [exact Hw' | exact H].
Defined.

(** ** Frames stay rectangular *)

Lemma rectangular_df_set df n k c :
  rectangular df n -> col_len c = n -> rectangular (df_set df k c) n.
Proof.
  unfold rectangular. intros H Hc.
  induction df as [| [k0 c0] df IH]; simpl.
  - repeat constructor. exact Hc.
  - apply Forall_cons_iff in H. destruct H as [Ha Hl]. simpl in Ha.
    destruct (String.eqb k k0); constructor; auto.
Qed.

Lemma rectangular_df_get df n k c :
  rectangular df n -> df_get df k = Some c -> col_len c = n.
Proof.
  unfold rectangular. intros H. induction df as [| [k0 c0] df IH]; simpl.
  - discriminate.
  - apply Forall_cons_iff in H. destruct H as [Ha Hl]. simpl in Ha.
    destruct (String.eqb k k0).
    + intros [= <-]. exact Ha.
    + now apply IH.
Qed.

Lemma rectangular_num df n k v :
  rectangular df n -> num df k = Some v -> List.length v = n.
Proof.
  intros H Hk. unfold num in Hk.
  destruct (df_get df k) as [[u | u] |] eqn:E; try discriminate.
  injection Hk as <-. exact (rectangular_df_get _ _ _ _ H E).
Qed.

Lemma rectangular_df_len df n k c :
  rectangular df n -> df_get df k = Some c -> df_len df = n.
Proof.
  unfold rectangular. intros H Hk. destruct df as [| [k0 c0] df].
  - discriminate.
  - apply Forall_cons_iff in H. destruct H as [Ha _]. exact Ha.
Qed.

Lemma rectangular_fillna df n : rectangular df n -> rectangular (fillna df) n.
Proof.
  unfold rectangular, fillna. intros H.
  induction H as [| [k c] df Hc _ IH]; simpl; constructor.
  - simpl in *. now rewrite fillna_col_len.
  - exact IH.
Qed.

Lemma calculate_rwa_col_length e p l m n :
  List.length e = n -> List.length p = n -> List.length l = n ->
  List.length m = n -> List.length (calculate_rwa_col e p l m) = n.
Proof.
  revert p l m n.
  induction e as [| e0 e IH]; intros [| p0 p] [| l0 l] [| m0 m] n;
    simpl; intros He Hp Hl Hm; subst; try discriminate; auto.
Qed.

Lemma zip_with_length_n {A B C} (f : A -> B -> C) l1 l2 n :
  List.length l1 = n -> List.length l2 = n ->
  List.length (zip_with f l1 l2) = n.
Proof.
  intros H1 H2. rewrite zip_with_length; congruence.
Qed.

Lemma stressed_pd_col_length base ci tr n :
  List.length base = n -> List.length ci = n -> List.length tr = n ->
  List.length (stressed_pd_col base ci tr) = n.
Proof.
  intros Hb Hc Ht. unfold stressed_pd_col, s_mul, c_add_s, shock_impact,
    s_div_c, s_mul_c, c_sub_s.
  rewrite length_map.
  apply zip_with_length_n; [exact Hb |].
  rewrite length_map. apply zip_with_length_n; now rewrite ?length_map.
Qed.

Lemma part_b_rectangular draws df df1 n :
  part_b draws df = Some df1 ->
  rectangular df n -> List.length draws = n -> rectangular df1 n.
Proof.
  intros Hb Hr Hd.
  destruct (part_b_spec _ _ _ Hb)
    as (ci & e & l & m & Hci & He & Hl & Hm & _).
  pose proof (rectangular_num _ _ _ _ Hr Hci) as Lci.
  pose proof (rectangular_num _ _ _ _ Hr He) as Le.
  pose proof (rectangular_num _ _ _ _ Hr Hl) as Ll.
  pose proof (rectangular_num _ _ _ _ Hr Hm) as Lm.
  unfold part_b in Hb. rewrite Hci in Hb. cbv zeta in Hb.
  repeat first [ rewrite num_df_set_same in Hb
               | rewrite num_df_set_other in Hb by discriminate ].
  rewrite He, Hl, Hm in Hb.
  repeat first [ rewrite num_df_set_same in Hb
               | rewrite num_df_set_other in Hb by discriminate ].
  injection Hb as <-.
  assert (Lb : List.length (base_pd_col draws ci) = n).
  { unfold base_pd_col, s_add, s_div_c.
    apply zip_with_length_n; now rewrite ?length_map. }
  repeat apply rectangular_df_set; try assumption; simpl;
    unfold s_mul_c; rewrite ?length_map;
    first [ exact Lb | now apply calculate_rwa_col_length ].
Qed.

Lemma part_c_stress_rectangular df df2 n :
  part_c_stress df = Some df2 -> rectangular df n -> rectangular df2 n.
Proof.
  intros Hs Hr.
  destruct (part_c_stress_spec _ _ Hs)
    as (ci & base & tr & e & l & m & ir & Hci & Hb & Ht & He & Hl & Hm & Hir
        & _).
  pose proof (rectangular_num _ _ _ _ Hr Hci) as Lci.
  pose proof (rectangular_num _ _ _ _ Hr Hb) as Lb.
  pose proof (rectangular_num _ _ _ _ Hr Ht) as Lt.
  pose proof (rectangular_num _ _ _ _ Hr He) as Le.
  pose proof (rectangular_num _ _ _ _ Hr Hl) as Ll.
  pose proof (rectangular_num _ _ _ _ Hr Hm) as Lm.
  pose proof (rectangular_num _ _ _ _ Hr Hir) as Lir.
  pose proof (stressed_pd_col_length _ _ _ _ Lb Lci Lt) as Lsp.
  unfold part_c_stress in Hs. rewrite Hci, Hb, Ht in Hs. cbv zeta in Hs.
  repeat first [ rewrite num_df_set_same in Hs
               | rewrite num_df_set_other in Hs by discriminate ].
  rewrite He, Hl, Hm in Hs.
  repeat first [ rewrite num_df_set_same in Hs
               | rewrite num_df_set_other in Hs by discriminate ].
  rewrite Hir in Hs. injection Hs as <-.
  repeat apply rectangular_df_set; try assumption; simpl;
    unfold s_mul_c, net_income_col, s_sub, s_mul; rewrite ?length_map;
    first [ exact Lsp
          | now apply calculate_rwa_col_length
          | repeat apply zip_with_length_n; assumption ].
Qed.

Lemma report_rectangular res w w' n k c :
  report res w = Some w' ->
  rectangular (frame w) n ->
  df_get (frame w) k = Some c ->
  rectangular (frame w') n /\
  (files w' = files w \/
   files w' = files w ++ [("final_strategy_output.csv"%string, frame w')]).
Proof.
  intros Hr Hrect Hk. unfold report in Hr.
  destruct (success res).
  - destruct (Nat.eqb (List.length (x res)) (df_len (frame w))) eqn:E;
      [| discriminate Hr].
    apply Nat.eqb_eq in E. rewrite (rectangular_df_len _ _ _ _ Hrect Hk) in E.
    cbn [negb] in Hr. rewrite num_df_set_same in Hr.
    repeat (cbv beta iota zeta in Hr; try next_column Hr).
    injection Hr as <-. cbn [frame files to_csv print set_frame].
    split; [| right; reflexivity].
    repeat apply rectangular_df_set; try assumption; simpl.
    now rewrite length_map.
  - injection Hr as <-. cbn [frame files print]. split; [exact Hrect |].
    left. reflexivity.
Qed.

(** X12.  Row alignment is kept from end to end: when every column of the
    joined frame has [n] rows and there are [n] beta draws, every column of
    the final frame, the retention and strategy columns included, has [n]
    rows, and so has every column of a file the script writes. *)
Theorem X12_frame_stays_rectangular :
  forall (linprog : LinProg -> OptimizeResult) (draws : Series)
         (df : DataFrame) (w : World) (n : nat),
    main_script linprog draws df = Some w ->
    rectangular df n ->
    List.length draws = n ->
    rectangular (frame w) n /\
    (forall path f, In (path, f) (files w) -> rectangular f n).
Proof.
  intros linprog draws df w n H Hrect Hd.
  destruct (main_script_inv _ _ _ _ H) as (df1 & df2 & lp & Hb & Hc & Hlp & Hr).
  pose proof (part_b_rectangular _ _ _ _ Hb Hrect Hd) as R1.
  pose proof (part_c_stress_rectangular _ _ _ Hc R1) as R2.
  pose proof (rectangular_fillna _ _ R2) as R3.
  assert (Hk : exists c, df_get (fillna df2) "Net_Income" = Some c).
  { unfold lp_problem, num in Hlp.
    destruct (df_get (fillna df2) "Net_Income") as [c |]; [| discriminate].
    now exists c. }
  destruct Hk as [c Hk].
  destruct (report_rectangular _ _ _ n _ _ Hr R3 Hk) as [R4 Hf].
  split; [exact R4 |].
  intros path f Hin. cbn [files app] in Hf.
  destruct Hf as [Hf | Hf]; rewrite Hf in Hin; simpl in Hin.
  - contradiction.
  - destruct Hin as [[= _ <-] | []]. exact R4.
Qed.

Lemma demo_frame_rectangular : rectangular demo_frame 1.
Proof. repeat constructor. Qed.

Lemma X12_frame_stays_rectangular_witness :
  exists w,
    main_script infeasible_solver [Fin 0.03] demo_frame = Some w /\
    rectangular (frame w) 1 /\
    (forall path f, In (path, f) (files w) -> rectangular f 1).
Proof.
  eexists. split.
  - reflexivity.
  - apply (X12_frame_stays_rectangular infeasible_solver [Fin 0.03]
             demo_frame _ 1).
    + reflexivity.
    + exact demo_frame_rectangular.
    + reflexivity.
Defined.

(** ** The dashboard *)

Lemma take_rows_nth {A} (picked : list nat) (l : list A) (j i : nat) :
  Forall (fun p => (p < List.length l)%nat) picked ->
  nth_error picked j = Some i ->
  nth_error (take_rows picked l) j = nth_error l i.
Proof.
  intros Hv. revert j. induction Hv as [| p picked Hp _ IH]; intros j Hj.
  - destruct j; discriminate.
  - simpl. destruct (nth_error l p) as [a |] eqn:E.
    + destruct j as [| j]; simpl in *.
      * injection Hj as <-. now rewrite E.
      * now apply IH.
    + apply nth_error_None in E. lia.
Qed.

Lemma take_rows_length {A} (picked : list nat) (l : list A) :
  Forall (fun p => (p < List.length l)%nat) picked ->
  List.length (take_rows picked l) = List.length picked.
Proof.
  induction 1 as [| p picked Hp _ IH]; simpl; [reflexivity |].
  destruct (nth_error l p) as [a |] eqn:E; simpl.
  - now rewrite IH.
  - apply nth_error_None in E. lia.
Qed.

Lemma df_get_df_sample picked df k :
  df_get (df_sample picked df) k
  = option_map (fun c => match c with
                         | NumCol v => NumCol (take_rows picked v)
                         | StrCol v => StrCol (take_rows picked v)
                         end) (df_get df k).
Proof.
  induction df as [| [k' c'] df IH]; simpl; [reflexivity |].
  destruct (String.eqb k k'); [reflexivity | exact IH].
Qed.

Lemma num_df_sample picked df k :
  num (df_sample picked df) k = option_map (take_rows picked) (num df k).
Proof.
  unfold num. rewrite df_get_df_sample.
  destruct (df_get df k) as [[v | v] |]; reflexivity.
Qed.

Lemma rectangular_df_sample picked df n :
  rectangular df n ->
  Forall (fun p => (p < n)%nat) picked ->
  rectangular (df_sample picked df) (List.length picked).
Proof.
  unfold rectangular, df_sample. intros H Hp.
  induction H as [| [k c] df Hc _ IH]; simpl; constructor; [| exact IH].
  simpl in *. destruct c as [v | v]; simpl in *; subst n;
    now apply take_rows_length.
Qed.

Lemma np_select3_nth c1 c2 c3 (a1 a2 a3 : string) d i b1 b2 b3 dv :
  nth_error c1 i = Some b1 ->
  nth_error c2 i = Some b2 ->
  nth_error c3 i = Some b3 ->
  nth_error d i = Some dv ->
  nth_error (np_select [c1; c2; c3] [a1; a2; a3] d) i
  = Some (if b1 then a1 else if b2 then a2 else if b3 then a3 else dv).
Proof.
  intros H1 H2 H3 Hd. cbn [np_select].
  apply (nth_error_zip_with (fun (b : bool) rest => if b then a1 else rest));
    [exact H1 |].
  apply (nth_error_zip_with (fun (b : bool) rest => if b then a2 else rest));
    [exact H2 |].
  apply (nth_error_zip_with (fun (b : bool) rest => if b then a3 else rest));
    [exact H3 | exact Hd].
Qed.

Lemma nth_error_repeat_lt {A} (a : A) (n i : nat) :
  (i < n)%nat -> nth_error (repeat a n) i = Some a.
Proof.
  revert i. induction n as [| n IH]; intros [| i] H; simpl; try lia; auto.
  apply IH. lia.
Qed.

Lemma dashboard_columns_spec dv out :
  dashboard_columns dv = Some out ->
  exists ni sc strategy ci,
    num dv "Net_Income" = Some ni /\
    num dv "Stressed_Capital" = Some sc /\
    df_get dv "Strategy" = Some strategy /\
    num dv "Carbon_Intensity" = Some ci /\
    df_get out "RAROC" = Some (NumCol (s_div ni sc)) /\
    df_get out "Category"
    = Some (StrCol
              (np_select
                 [col_eq_str strategy "Exit";
                  b_and (s_gt_c ci (Fin 1200)) (col_eq_str strategy "Hold");
                  col_eq_str strategy "Hold"]
                 ["Divest (Value Destroyer)"; "Transition Opportunity";
                  "Green Leader"]%string
                 (repeat "Green Leader"%string
                    (df_len (df_set dv "RAROC" (NumCol (s_div ni sc))))))).
Proof.
  unfold dashboard_columns. intros H.
  destruct (num dv "Net_Income") as [ni |] eqn:Eni; [| discriminate H].
  destruct (num dv "Stressed_Capital") as [sc |] eqn:Esc; [| discriminate H].
  cbv zeta in H.
  rewrite df_get_df_set_other in H by discriminate.
  rewrite num_df_set_other in H by discriminate.
  destruct (df_get dv "Strategy") as [strategy |] eqn:Est; [| discriminate H].
  destruct (num dv "Carbon_Intensity") as [ci |] eqn:Eci; [| discriminate H].
  injection H as <-.
  exists ni, sc, strategy, ci. repeat split.
  - rewrite df_get_df_set_other by discriminate. apply df_get_df_set_same.
  - apply df_get_df_set_same.
Qed.

Lemma fgt_fin (c t : R) : fgt (Fin c) (Fin t) = true <-> t < c.
Proof.
  unfold fgt, flt. destruct (Rlt_dec t c); split; intros; try lra;
    try reflexivity; discriminate.
Qed.

Lemma dashboard_category_nth dv out n i labels ci s cv :
  dashboard_columns dv = Some out ->
  rectangular dv n ->
  df_get dv "Strategy" = Some (StrCol labels) ->
  num dv "Carbon_Intensity" = Some ci ->
  nth_error labels i = Some s ->
  nth_error ci i = Some cv ->
  exists cat,
    df_get out "Category" = Some (StrCol cat) /\
    nth_error cat i
    = Some (if String.eqb s "Exit" then "Divest (Value Destroyer)"
            else if fgt cv (Fin 1200) && String.eqb s "Hold"
                 then "Transition Opportunity"
                 else "Green Leader")%string.
Proof.
  intros Hd Hrect Hst Hci Ns Nc.
  destruct (dashboard_columns_spec _ _ Hd)
    as (ni & sc & strategy & ci' & Eni & Esc & Est & Eci & _ & Hcat).
  rewrite Hst in Est. injection Est as <-.
  rewrite Hci in Eci. injection Eci as <-.
  eexists. split; [exact Hcat |].
  pose proof (rectangular_num _ _ _ _ Hrect Eni) as Lni.
  pose proof (rectangular_num _ _ _ _ Hrect Esc) as Lsc.
  pose proof (rectangular_df_get _ _ _ _ Hrect Hst) as Llab. simpl in Llab.
  assert (Hlen : df_len (df_set dv "RAROC" (NumCol (s_div ni sc))) = n).
  { apply (rectangular_df_len _ _ "RAROC" (NumCol (s_div ni sc))).
    - apply rectangular_df_set; [exact Hrect |]. simpl.
      unfold s_div. now apply zip_with_length_n.
    - apply df_get_df_set_same. }
  rewrite Hlen.
  assert (Hi : (i < n)%nat).
  { rewrite <- Llab. apply nth_error_Some. congruence. }
  rewrite (np_select3_nth _ _ _ _ _ _ _ i
             (String.eqb s "Exit")
             (fgt cv (Fin 1200) && String.eqb s "Hold")
             (String.eqb s "Hold") "Green Leader"%string).
  - destruct (String.eqb s "Exit"); [reflexivity |].
    destruct (fgt cv (Fin 1200) && String.eqb s "Hold"); [reflexivity |].
    destruct (String.eqb s "Hold"); reflexivity.
  - simpl. now apply (nth_error_map_some (fun u => String.eqb u "Exit")).
  - unfold b_and. apply nth_error_zip_with.
    + unfold s_gt_c. now apply (nth_error_map_some (fun v => fgt v (Fin 1200))).
    + simpl. now apply (nth_error_map_some (fun u => String.eqb u "Hold")).
  - simpl. now apply (nth_error_map_some (fun u => String.eqb u "Hold")).
  - now apply nth_error_repeat_lt.
Qed.

(** X13.  The category of a sampled row: "Divest (Value Destroyer)" when
    its strategy is Exit, whatever the carbon intensity; "Transition
    Opportunity" when it is Hold with a carbon intensity above 1200; "Green
    Leader" in every other case, a NaN carbon intensity and a strategy that
    is neither Exit nor Hold included. *)
Theorem X13_dashboard_category :
  forall (dv out : DataFrame) (n i : nat) (labels : list string)
         (ci : Series) (s : string) (cv : fnum),
    dashboard_columns dv = Some out ->
    rectangular dv n ->
    df_get dv "Strategy" = Some (StrCol labels) ->
    num dv "Carbon_Intensity" = Some ci ->
    nth_error labels i = Some s ->
    nth_error ci i = Some cv ->
    exists cat,
      df_get out "Category" = Some (StrCol cat) /\
      (s = "Exit"%string ->
       nth_error cat i = Some "Divest (Value Destroyer)"%string) /\
      (s = "Hold"%string ->
       forall c, cv = Fin c -> 1200 < c ->
       nth_error cat i = Some "Transition Opportunity"%string) /\
      (s = "Hold"%string ->
       cv = NaN \/ (exists c, cv = Fin c /\ c <= 1200) ->
       nth_error cat i = Some "Green Leader"%string) /\
      (s <> "Exit"%string -> s <> "Hold"%string ->
       nth_error cat i = Some "Green Leader"%string).
Proof.
  intros dv out n i labels ci s cv Hd Hrect Hst Hci Ns Nc.
  destruct (dashboard_category_nth _ _ _ _ _ _ _ _ Hd Hrect Hst Hci Ns Nc)
    as (cat & Hcat & Hn).
  exists cat. split; [exact Hcat |]. rewrite Hn.
  split; [| split; [| split]].
  - intros ->. reflexivity.
  - intros -> c -> Hc. cbn [String.eqb Ascii.eqb Bool.eqb].
    apply fgt_fin in Hc. rewrite Hc. reflexivity.
  - intros -> [-> | (c & -> & Hc)]; cbn [String.eqb Ascii.eqb Bool.eqb].
    + reflexivity.
    + destruct (fgt (Fin c) (Fin 1200)) eqn:E; [| reflexivity].
      apply fgt_fin in E. lra.
  - intros H1 H2.
    apply String.eqb_neq in H1. apply String.eqb_neq in H2.
    rewrite H1, H2, andb_false_r. reflexivity.
Qed.

Lemma demo_viz_dashboard :
  exists out, dashboard_columns demo_viz_frame = Some out.
Proof. eexists. reflexivity. Qed.

Lemma demo_viz_rectangular : rectangular demo_viz_frame 2.
Proof. repeat constructor. Qed.

Lemma X13_dashboard_category_witness :
  exists out cat,
    dashboard_columns demo_viz_frame = Some out /\
    df_get out "Category" = Some (StrCol cat) /\
    ("Hold"%string = "Exit"%string ->
     nth_error cat 0 = Some "Divest (Value Destroyer)"%string) /\
    ("Hold"%string = "Hold"%string ->
     forall c, Fin 1800 = Fin c -> 1200 < c ->
     nth_error cat 0 = Some "Transition Opportunity"%string) /\
    ("Hold"%string = "Hold"%string ->
     Fin 1800 = NaN \/ (exists c, Fin 1800 = Fin c /\ c <= 1200) ->
     nth_error cat 0 = Some "Green Leader"%string) /\
    ("Hold"%string <> "Exit"%string -> "Hold"%string <> "Hold"%string ->
     nth_error cat 0 = Some "Green Leader"%string).
Proof.
  destruct demo_viz_dashboard as [out Hout].
  destruct (X13_dashboard_category demo_viz_frame out 2 0
              ["Hold"; "Exit"]%string [Fin 1800; Fin 20] "Hold"%string
              (Fin 1800) Hout demo_viz_rectangular
              eq_refl eq_refl eq_refl eq_refl) as (cat & H).
  exists out, cat. split; [exact Hout | exact H].
Defined.

(** ** From the retention to the colour of the point *)

Lemma report_success_keeps res w w' k :
  success res = true ->
  report res w = Some w' ->
  k <> "Optimized_Retention"%string -> k <> "Strategy"%string ->
  df_get (frame w') k = df_get (frame w) k.
Proof.
  intros Hs H H1 H2. unfold report in H. rewrite Hs in H.
  destruct (negb _); [discriminate H |].
  rewrite num_df_set_same in H.
  repeat (cbv beta iota zeta in H; try next_column H).
  injection H as <-. cbn [frame to_csv print set_frame].
  now rewrite !df_get_df_set_other by congruence.
Qed.

(** X15.  The two scripts composed: a row of the written file that the
    dashboard samples is coloured by its retention and carbon intensity.
    A finite retention below 0.1 gives "Divest (Value Destroyer)"; a
    retention of at least 0.1 gives "Transition Opportunity" above a carbon
    intensity of 1200 and "Green Leader" otherwise. *)
Theorem X15_category_from_retention :
  forall (res : OptimizeResult) (w w' : World) (picked : list nat)
         (out : DataFrame) (n j i : nat) (ci : Series) (r c : R),
    success res = true ->
    report res w = Some w' ->
    rectangular (frame w) n ->
    num (frame w) "Carbon_Intensity" = Some ci ->
    Forall (fun p => (p < n)%nat) picked ->
    dashboard picked (frame w') = Some out ->
    nth_error picked j = Some i ->
    nth_error (x res) i = Some (Fin r) ->
    nth_error ci i = Some (Fin c) ->
    In ("final_strategy_output.csv"%string, frame w') (files w') /\
    exists cat,
      df_get out "Category" = Some (StrCol cat) /\
      (r < 0.1 -> nth_error cat j = Some "Divest (Value Destroyer)"%string) /\
      (0.1 <= r -> 1200 < c ->
       nth_error cat j = Some "Transition Opportunity"%string) /\
      (0.1 <= r -> c <= 1200 ->
       nth_error cat j = Some "Green Leader"%string).
Proof.
  intros res w w' picked out n j i ci r c
         Hs Hr Hrect Hci Hp Hd Nj Nx Nc.
  destruct (report_success _ _ _ Hs Hr) as (Hfiles & _ & Hstr & _).
  split; [rewrite Hfiles; apply in_or_app; right; now left |].
  assert (Hk : exists col, df_get (frame w) "Carbon_Intensity" = Some col).
  { unfold num in Hci.
    destruct (df_get (frame w) "Carbon_Intensity") as [col |];
      [now exists col | discriminate]. }
  destruct Hk as [col Hk].
  destruct (report_rectangular _ _ _ n _ _ Hr Hrect Hk) as [Hrect' _].
  pose proof (rectangular_df_sample picked _ _ Hrect' Hp) as Hrs.
  assert (Hci' : num (frame w') "Carbon_Intensity" = Some ci).
  { rewrite (num_of_df_get _ _ _
               (report_success_keeps _ _ _ "Carbon_Intensity" Hs Hr
                  ltac:(discriminate) ltac:(discriminate))).
    exact Hci. }
  pose proof (rectangular_df_get _ _ _ _ Hrect' Hstr) as Llab.
  pose proof (rectangular_num _ _ _ _ Hrect' Hci') as Lci.
  simpl in Llab.
  assert (Hst_s : df_get (df_sample picked (frame w')) "Strategy"
                  = Some (StrCol (take_rows picked
                                    (map strategy_of (x res))))).
  { rewrite df_get_df_sample, Hstr. reflexivity. }
  assert (Hci_s : num (df_sample picked (frame w')) "Carbon_Intensity"
                  = Some (take_rows picked ci)).
  { rewrite num_df_sample, Hci'. reflexivity. }
  assert (Ns : nth_error (take_rows picked (map strategy_of (x res))) j
               = Some (strategy_of (Fin r))).
  { rewrite (take_rows_nth picked _ j i); [| now rewrite Llab | exact Nj].
    now apply nth_error_map_some. }
  assert (Ncs : nth_error (take_rows picked ci) j = Some (Fin c)).
  { rewrite (take_rows_nth picked _ j i); [exact Nc | now rewrite Lci
                                           | exact Nj]. }
  unfold dashboard in Hd.
  destruct (dashboard_category_nth _ _ _ _ _ _ _ _ Hd Hrs Hst_s Hci_s Ns Ncs)
    as (cat & Hcat & Hn).
  exists cat. split; [exact Hcat |]. rewrite Hn.
  destruct (strategy_of_fin r) as [He Hh].
  split; [| split].
  - intros Hlt. rewrite (He Hlt). reflexivity.
  - intros Hge Hc. rewrite (Hh Hge). cbn [String.eqb Ascii.eqb Bool.eqb].
    apply fgt_fin in Hc. rewrite Hc. reflexivity.
  - intros Hge Hc. rewrite (Hh Hge). cbn [String.eqb Ascii.eqb Bool.eqb].
    destruct (fgt (Fin c) (Fin 1200)) eqn:E; [| reflexivity].
    apply fgt_fin in E. lra.
Qed.

Lemma demo_two_rows_run :
  exists w' out,
    report demo_result demo_two_rows = Some w' /\
    dashboard [1; 0]%nat (frame w') = Some out.
Proof.
  eexists. eexists. split; reflexivity.
Qed.

Lemma demo_two_rows_rectangular : rectangular (frame demo_two_rows) 2.
Proof. repeat constructor. Qed.

Lemma X15_category_from_retention_witness :
  exists w' out,
    report demo_result demo_two_rows = Some w' /\
    dashboard [1; 0]%nat (frame w') = Some out /\
    In ("final_strategy_output.csv"%string, frame w') (files w') /\
    exists cat,
      df_get out "Category" = Some (StrCol cat) /\
      (0.05 < 0.1 ->
       nth_error cat 1 = Some "Divest (Value Destroyer)"%string) /\
      (0.1 <= 0.05 -> 1200 < 1800 ->
       nth_error cat 1 = Some "Transition Opportunity"%string) /\
      (0.1 <= 0.05 -> 1800 <= 1200 ->
       nth_error cat 1 = Some "Green Leader"%string).
Proof.
  destruct demo_two_rows_run as (w' & out & Hr & Hd).
  exists w', out. split; [exact Hr |]. split; [exact Hd |].
  apply (X15_category_from_retention demo_result demo_two_rows w'
           [1; 0]%nat out 2 1 0 [Fin 1800; Fin 20] 0.05 1800
           eq_refl Hr demo_two_rows_rectangular eq_refl).
  - repeat constructor.
  - exact Hd.
  - reflexivity.
  - reflexivity.
  - reflexivity.
Defined.

(** ** The two ROE figures *)

Lemma report_success_console res w w' :
  success res = true ->
  report res w = Some w' ->
  exists ni sc,
    num (frame w) "Net_Income" = Some ni /\
    num (frame w) "Stressed_Capital" = Some sc /\
    console w'
    = console w ++
      [Line rule40;
       Line "Optimization Successful";
       PercentLine "Stressed ROE (Baseline): "
         (fdiv (s_sum ni) (s_sum sc)) "";
       PercentLine "Optimized ROE (Target):  "
         (fdiv (s_sum (s_mul ni (x res))) (s_sum (s_mul sc (x res))))
         " (Capital Efficient)";
       Line rule40].
Proof.
  intros Hs H. unfold report in H. rewrite Hs in H.
  destruct (negb _); [discriminate H |].
  rewrite num_df_set_same in H. cbv zeta in H.
  rewrite !num_df_set_other in H by discriminate.
  destruct (num (frame w) "Net_Income") as [ni |]; [| discriminate H].
  destruct (num (frame w) "Stressed_Capital") as [sc |]; [| discriminate H].
  injection H as <-. exists ni, sc.
  split; [reflexivity |]. split; [reflexivity |].
  cbn [console to_csv print set_frame]. rewrite <- !app_assoc. reflexivity.
Qed.

Lemma s_mul_Fin (a b : list R) :
  s_mul (map Fin a) (map Fin b) = map Fin (zip_with Rmult a b).
Proof. unfold s_mul. now apply zip_with_map_Fin. Qed.

(** X16.  For finite columns the two figures printed on success are the
    quotients of the real sums: the baseline ROE is sum(NI) / sum(SC) and
    the optimised ROE is sum(NI * x) / sum(SC * x), each by the rules of
    float division when the capital sum is zero.  When the solver keeps
    every facility in full the two figures coincide. *)
Theorem X16_roe_figures :
  forall (res : OptimizeResult) (w w' : World) (ni sc xs : list R),
    success res = true ->
    report res w = Some w' ->
    num (frame w) "Net_Income" = Some (map Fin ni) ->
    num (frame w) "Stressed_Capital" = Some (map Fin sc) ->
    x res = map Fin xs ->
    List.length sc = List.length ni ->
    exists base opt : fnum,
      console w'
      = console w ++
        [Line rule40;
         Line "Optimization Successful";
         PercentLine "Stressed ROE (Baseline): " base "";
         PercentLine "Optimized ROE (Target):  " opt " (Capital Efficient)";
         Line rule40] /\
      base = fdiv (Fin (Rsum ni)) (Fin (Rsum sc)) /\
      opt = fdiv (Fin (Rdot ni xs)) (Fin (Rdot sc xs)) /\
      (Rsum sc <> 0 -> base = Fin (Rsum ni / Rsum sc)) /\
      (xs = repeat 1 (List.length ni) -> opt = base).
Proof.
  intros res w w' ni sc xs Hs Hr Hni Hsc Hx Hlen.
  destruct (report_success_console _ _ _ Hs Hr) as (ni' & sc' & Eni & Esc & Hc).
  rewrite Hni in Eni. injection Eni as <-.
  rewrite Hsc in Esc. injection Esc as <-.
  rewrite Hx, !s_mul_Fin, !s_sum_Fin in Hc.
  change (Rsum (zip_with Rmult ni xs)) with (Rdot ni xs) in Hc.
  change (Rsum (zip_with Rmult sc xs)) with (Rdot sc xs) in Hc.
  eexists _, _. split; [exact Hc |].
  split; [reflexivity |]. split; [reflexivity |]. split.
  - intros Hne. now apply fdiv_fin.
  - intros ->.
    rewrite (Rdot_comm ni), Rdot_ones.
    rewrite (Rdot_comm sc), <- Hlen, Rdot_ones. reflexivity.
Qed.

Lemma X16_roe_figures_witness :
  exists (w' : World) (base opt : fnum),
    report demo_result demo_two_rows = Some w' /\
    console w'
    = console demo_two_rows ++
      [Line rule40;
       Line "Optimization Successful";
       PercentLine "Stressed ROE (Baseline): " base "";
       PercentLine "Optimized ROE (Target):  " opt " (Capital Efficient)";
       Line rule40] /\
    base = fdiv (Fin (Rsum [-3; 5])) (Fin (Rsum [12; 4])) /\
    opt = fdiv (Fin (Rdot [-3; 5] [0.05; 1])) (Fin (Rdot [12; 4] [0.05; 1])) /\
    (Rsum [12; 4] <> 0 -> base = Fin (Rsum [-3; 5] / Rsum [12; 4])) /\
    ([0.05; 1] = repeat 1 (List.length [-3; 5]) -> opt = base).
Proof.
  destruct demo_two_rows_run as (w' & out & Hr & _).
  destruct (X16_roe_figures demo_result demo_two_rows w'
              [-3; 5] [12; 4] [0.05; 1]
              eq_refl Hr eq_refl eq_refl eq_refl eq_refl)
    as (base & opt & H).
  exists w', base, opt. split; [exact Hr | exact H].
Defined.

(** ** Part A: the join of the two tables *)

Lemma filter_on_borrower_length f esg :
  List.length (filter (on_borrower f) esg)
  = count_occ Z.eq_dec (map e_Borrower_ID esg) (f_Borrower_ID f).
Proof.
  induction esg as [|e esg IH]; [reflexivity |].
  cbn [filter map count_occ]. unfold on_borrower at 1.
  destruct (Z.eqb_spec (f_Borrower_ID f) (e_Borrower_ID e)) as [E|E];
    destruct (Z.eq_dec (e_Borrower_ID e) (f_Borrower_ID f)) as [E'|E'];
    try congruence; cbn [List.length]; now rewrite IH.
Qed.

Lemma sql_join_length fin esg :
  List.length (sql_join fin esg)
  = list_sum (map (fun f => count_occ Z.eq_dec (map e_Borrower_ID esg)
                                      (f_Borrower_ID f)) fin).
Proof.
  induction fin as [|f fin IH]; [reflexivity |].
  unfold sql_join in *. cbn [flat_map map list_sum].
  rewrite length_app, length_map, filter_on_borrower_length.
  now rewrite IH.
Qed.

Lemma sql_join_In r fin esg :
  In r (sql_join fin esg) <->
  exists f e, In f fin /\ In e esg /\
              f_Borrower_ID f = e_Borrower_ID e /\ r = select_row f e.
Proof.
  unfold sql_join. rewrite in_flat_map. split.
  - intros (f & Hf & Hr). apply in_map_iff in Hr.
    destruct Hr as (e & <- & He). apply filter_In in He.
    destruct He as [He Hon]. exists f, e. repeat split; auto.
    now apply Z.eqb_eq.
  - intros (f & e & Hf & He & Hid & ->). exists f. split; [exact Hf |].
    apply in_map. apply filter_In. split; [exact He |].
    now apply Z.eqb_eq.
Qed.

Lemma read_sql_query_rectangular rows :
  rectangular (read_sql_query rows) (List.length rows).
Proof.
  unfold rectangular, read_sql_query. destruct rows as [| r rows].
  - repeat constructor.
  - repeat constructor; cbn [snd col_len]; apply length_map.
Qed.

Lemma read_sql_query_len rows :
  df_len (read_sql_query rows) = List.length rows.
Proof. destruct rows; [reflexivity |]. cbn. now rewrite length_map. Qed.

(** X17.  The join is an inner join on the borrower id.  A row of the
    result is the SELECT list of a financial row and an ESG row with equal
    ids; each loan gives as many rows as there are ESG records of its
    borrower, so a loan without a record is dropped and a loan with
    several is repeated; [len(df)] is the number of these rows. *)
Theorem X17_join_is_inner_join :
  forall (fin : list fin_row) (esg : list esg_row),
    (forall r, In r (sql_join fin esg) <->
               exists f e, In f fin /\ In e esg /\
                           f_Borrower_ID f = e_Borrower_ID e /\
                           r = select_row f e) /\
    df_len (read_sql_query (sql_join fin esg))
    = list_sum (map (fun f => count_occ Z.eq_dec (map e_Borrower_ID esg)
                                        (f_Borrower_ID f)) fin) /\
    (forall f, ~ In (f_Borrower_ID f) (map e_Borrower_ID esg) ->
               df_len (read_sql_query (sql_join (f :: fin) esg))
               = df_len (read_sql_query (sql_join fin esg))).
Proof.
  intros fin esg. split; [| split].
  - intros r. apply sql_join_In.
  - rewrite read_sql_query_len. apply sql_join_length.
  - intros f Hno. rewrite !read_sql_query_len, !sql_join_length.
    cbn [map].
    match goal with
    | |- list_sum (?a :: ?l) = _ => change (a + list_sum l = list_sum l)%nat
    end.
    apply (count_occ_not_In Z.eq_dec) in Hno. rewrite Hno. reflexivity.
Qed.

Lemma X17_join_is_inner_join_witness :
  ~ In (f_Borrower_ID demo_orphan) (map e_Borrower_ID demo_esg) /\
  df_len (read_sql_query (sql_join (demo_orphan :: demo_fin) demo_esg))
  = df_len (read_sql_query (sql_join demo_fin demo_esg)).
Proof.
  assert (H : ~ In (f_Borrower_ID demo_orphan) (map e_Borrower_ID demo_esg))
    by (cbn; intuition discriminate).
  split; [exact H |].
  exact (proj2 (proj2 (X17_join_is_inner_join demo_fin demo_esg))
           demo_orphan H).
Defined.

Lemma sql_join_length_unique fin esg :
  NoDup (map e_Borrower_ID esg) ->
  incl (map f_Borrower_ID fin) (map e_Borrower_ID esg) ->
  List.length (sql_join fin esg) = List.length fin.
Proof.
  intros Hnd Hincl. rewrite sql_join_length.
  induction fin as [|f fin IH]; [reflexivity |].
  cbn [map List.length].
  match goal with
  | |- list_sum (?a :: ?l) = _ =>
      change (a + list_sum l = S (List.length fin))%nat
  end.
  rewrite IH by (intros a Ha; apply Hincl; now right).
  rewrite (proj1 (NoDup_count_occ' Z.eq_dec _) Hnd (f_Borrower_ID f))
    by (apply Hincl; now left).
  reflexivity.
Qed.

Lemma sql_join_keeps fin esg f :
  incl (map f_Borrower_ID fin) (map e_Borrower_ID esg) ->
  In f fin ->
  exists e, In e esg /\ e_Borrower_ID e = f_Borrower_ID f /\
            In (select_row f e) (sql_join fin esg).
Proof.
  intros Hincl Hf.
  assert (Hid : In (f_Borrower_ID f) (map e_Borrower_ID esg))
    by (apply Hincl; now apply in_map).
  apply in_map_iff in Hid. destruct Hid as (e & He & Hin).
  exists e. repeat split; auto.
  apply sql_join_In. exists f, e. repeat split; auto.
Qed.

(** X18.  When no two ESG records share a borrower id and every loan's
    borrower has a record, the join loads each loan exactly once: the
    frame has one row per loan, and every loan is there with the record
    of its own borrower. *)
Theorem X18_join_keeps_each_loan_once :
  forall (fin : list fin_row) (esg : list esg_row),
    NoDup (map e_Borrower_ID esg) ->
    incl (map f_Borrower_ID fin) (map e_Borrower_ID esg) ->
    df_len (read_sql_query (sql_join fin esg)) = List.length fin /\
    rectangular (read_sql_query (sql_join fin esg)) (List.length fin) /\
    forall f, In f fin ->
              exists e, In e esg /\ e_Borrower_ID e = f_Borrower_ID f /\
                        In (select_row f e) (sql_join fin esg).
Proof.
  intros fin esg Hnd Hincl.
  pose proof (sql_join_length_unique fin esg Hnd Hincl) as Hlen.
  split; [| split].
  - now rewrite read_sql_query_len.
  - rewrite <- Hlen. apply read_sql_query_rectangular.
  - intros f Hf. now apply sql_join_keeps.
Qed.

Lemma demo_esg_ids_unique : NoDup (map e_Borrower_ID demo_esg).
Proof.
  cbn. repeat constructor; cbn; intuition discriminate.
Qed.

Lemma demo_fin_ids_known :
  incl (map f_Borrower_ID demo_fin) (map e_Borrower_ID demo_esg).
Proof. intros a Ha. exact Ha. Qed.

Lemma X18_join_keeps_each_loan_once_witness :
  NoDup (map e_Borrower_ID demo_esg) /\
  incl (map f_Borrower_ID demo_fin) (map e_Borrower_ID demo_esg) /\
  df_len (read_sql_query (sql_join demo_fin demo_esg)) = List.length demo_fin /\
  rectangular (read_sql_query (sql_join demo_fin demo_esg))
              (List.length demo_fin) /\
  forall f, In f demo_fin ->
            exists e, In e demo_esg /\ e_Borrower_ID e = f_Borrower_ID f /\
                      In (select_row f e) (sql_join demo_fin demo_esg).
Proof.
  split; [exact demo_esg_ids_unique |].
  split; [exact demo_fin_ids_known |].
  exact (X18_join_keeps_each_loan_once demo_fin demo_esg
           demo_esg_ids_unique demo_fin_ids_known).
Defined.

(** ** From the generated tables to the script *)

Lemma df_fin_from_ids n :
  forall i sector exposure maturity rate,
    List.length sector = n -> List.length exposure = n ->
    List.length maturity = n -> List.length rate = n ->
    map f_Borrower_ID (df_fin_from i sector exposure maturity rate)
    = map Z.of_nat (seq (S i) n).
Proof.
  induction n as [|n IH]; intros i sector exposure maturity rate Hs He Hm Hr.
  - destruct sector; [reflexivity | discriminate Hs].
  - destruct sector as [|s sector]; [discriminate Hs |].
    destruct exposure as [|v exposure]; [discriminate He |].
    destruct maturity as [|m maturity]; [discriminate Hm |].
    destruct rate as [|r rate]; [discriminate Hr |].
    cbn [df_fin_from map seq f_Borrower_ID]. f_equal.
    + lia.
    + apply IH; cbn in *; congruence.
Qed.

Lemma df_fin_from_lgd sector :
  forall i exposure maturity rate,
    Forall (fun f => f_LGD f = Fin 0.45)
           (df_fin_from i sector exposure maturity rate).
Proof.
  induction sector as [|s sector IH]; intros i exposure maturity rate.
  - constructor.
  - destruct exposure as [|v exposure]; [constructor |].
    destruct maturity as [|m maturity]; [constructor |].
    destruct rate as [|r rate]; [constructor |].
    cbn [df_fin_from]. constructor; [reflexivity | apply IH].
Qed.

Lemma df_esg_ids fin :
  forall esg_metrics,
    List.length esg_metrics = List.length fin ->
    map e_Borrower_ID (df_esg fin esg_metrics) = map f_Borrower_ID fin.
Proof.
  unfold df_esg.
  induction fin as [|f fin IH]; intros [|x xs] H; try discriminate H;
    [reflexivity |].
  cbn [zip_with map e_Borrower_ID]. f_equal. apply IH.
  cbn in H. congruence.
Qed.

Lemma NoDup_map_injective {A B} (g : A -> B) (l : list A) :
  (forall a b, g a = g b -> a = b) -> NoDup l -> NoDup (map g l).
Proof.
  intros Hg. induction 1 as [|a l Ha _ IH]; cbn [map]; constructor.
  - intros Hin. apply in_map_iff in Hin. destruct Hin as (b & Hb & Hin).
    apply Hg in Hb. subst b. contradiction.
  - exact IH.
Qed.

Lemma borrower_ids_NoDup n : NoDup (borrower_ids n).
Proof.
  unfold borrower_ids. apply NoDup_map_injective.
  - intros a b. apply Nat2Z.inj.
  - apply seq_NoDup.
Qed.

Lemma map_constant {A B} (g : A -> B) (v : B) (l : list A) :
  Forall (fun a => g a = v) l -> map g l = repeat v (List.length l).
Proof.
  induction 1 as [|a l Ha _ IH]; [reflexivity |].
  cbn [map List.length repeat]. now rewrite Ha, IH.
Qed.

Lemma sql_join_lgd fin esg v :
  Forall (fun f => f_LGD f = v) fin ->
  Forall (fun r => LGD r = v) (sql_join fin esg).
Proof.
  intros H. apply Forall_forall. intros r Hr.
  apply sql_join_In in Hr. destruct Hr as (f & e & Hf & _ & _ & ->).
  cbn [select_row LGD]. now apply (proj1 (Forall_forall _ _) H).
Qed.

(** X19.  The tables the generator writes for [n] loans, [n] at least 1,
    whatever its random draws were, load completely: both carry the
    borrower ids 1 to [n], so the join has [n] rows in seven columns,
    [LGD] is 0.45 on every row, and the script runs on this frame to its
    end under the names the query gives the columns. *)
Theorem X19_generated_tables_load_and_run :
  forall (linprog : LinProg -> OptimizeResult) (draws : Series) (n : nat)
         (sector : list string) (exposure maturity rate : Series)
         (esg_metrics : list (fnum * fnum)),
    linprog_dimension linprog ->
    (0 < n)%nat ->
    List.length sector = n -> List.length exposure = n ->
    List.length maturity = n -> List.length rate = n ->
    List.length esg_metrics = n ->
    df_len (generated_frame sector exposure maturity rate esg_metrics) = n /\
    rectangular (generated_frame sector exposure maturity rate esg_metrics) n /\
    columns (generated_frame sector exposure maturity rate esg_metrics)
    = "Sector"%string :: numeric_inputs /\
    num (generated_frame sector exposure maturity rate esg_metrics) "LGD"
    = Some (repeat (Fin 0.45) n) /\
    exists w,
      main_script linprog draws
        (generated_frame sector exposure maturity rate esg_metrics) = Some w.
Proof.
  intros linprog draws n sector exposure maturity rate esg_metrics
         Hdim Hn Hs He Hm Hr Hx.
  unfold generated_frame.
  set (fin := df_fin sector exposure maturity rate).
  assert (Hids : map f_Borrower_ID fin = borrower_ids n)
    by (apply df_fin_from_ids; assumption).
  assert (Hfin : List.length fin = n).
  { rewrite <- (length_map f_Borrower_ID), Hids. unfold borrower_ids.
    now rewrite length_map, length_seq. }
  assert (Hesg : map e_Borrower_ID (df_esg fin esg_metrics)
                 = map f_Borrower_ID fin)
    by (apply df_esg_ids; congruence).
  assert (Hlen : List.length (sql_join fin (df_esg fin esg_metrics)) = n).
  { rewrite <- Hfin. apply sql_join_length_unique.
    - rewrite Hesg, Hids. apply borrower_ids_NoDup.
    - rewrite Hesg. apply incl_refl. }
  assert (Hlgd : Forall (fun r => LGD r = Fin 0.45)
                        (sql_join fin (df_esg fin esg_metrics)))
    by (apply sql_join_lgd, df_fin_from_lgd).
  split; [now rewrite read_sql_query_len |].
  split; [rewrite <- Hlen; apply read_sql_query_rectangular |].
  destruct (sql_join fin (df_esg fin esg_metrics)) as [| r rows] eqn:Erows.
  { cbn in Hlen. lia. }
  split; [reflexivity |].
  split.
  - change (Some (map LGD (r :: rows)) = Some (repeat (Fin 0.45) n)).
    f_equal. rewrite <- Hlen. now apply map_constant.
  - eapply main_script_total; [exact Hdim | reflexivity ..].
Qed.

Lemma X19_generated_tables_load_and_run_witness :
  exists df : DataFrame,
    df = generated_frame ["Steel & Cement"; "IT Services"]%string
           [Fin 100; Fin 50] [Fin 5; Fin 2] [Fin 0.1; Fin 0.09]
           [(Fin 1800, Fin 0.4); (Fin 20, Fin 0.8)] /\
    linprog_dimension infeasible_solver /\
    (0 < 2)%nat /\
    df_len df = 2%nat /\
    rectangular df 2 /\
    columns df = "Sector"%string :: numeric_inputs /\
    num df "LGD" = Some (repeat (Fin 0.45) 2) /\
    exists w, main_script infeasible_solver [Fin 0.03; Fin 0.02] df = Some w.
Proof.
  eexists. split; [reflexivity |].
  split; [exact infeasible_solver_dimension |].
  split; [exact (le_S 1 1 (le_n 1)) |].
  exact (X19_generated_tables_load_and_run infeasible_solver
           [Fin 0.03; Fin 0.02] 2
           ["Steel & Cement"; "IT Services"]%string
           [Fin 100; Fin 50] [Fin 5; Fin 2] [Fin 0.1; Fin 0.09]
           [(Fin 1800, Fin 0.4); (Fin 20, Fin 0.8)]
           infeasible_solver_dimension (le_S 1 1 (le_n 1))
           eq_refl eq_refl eq_refl eq_refl eq_refl).
Defined.
